(** * openstack_client_exporter: the scrape handler, the step timer and
      resource naming

    The repository has two revisions of [main.go].  The older one
    (src/main.go) takes the request timeout from a [timeout] query
    parameter and always runs both probes; it is embedded in module
    [Query].  The newer one (src/unnamed/part_000) takes everything from
    command-line flags, can switch each probe off, hands its context to
    [getProvider] and contains [createName]; it is embedded in module
    [Flags].  [step] is the same in both.

    Instants and durations are integers counting nanoseconds, as in Go's
    [time] package.  Strings are byte strings. *)

From stdpp Require Import gmap strings list.
From Stdlib Require Import ZArith Ascii DecimalString DecimalZ DecimalPos Lia.

Local Open Scope Z_scope.

(** ** Time *)

Definition Duration := Z.
Definition Time := Z.

Definition Nanosecond : Duration := 1.
Definition Microsecond : Duration := 1000 * Nanosecond.
Definition Millisecond : Duration := 1000 * Microsecond.
Definition Second : Duration := 1000 * Millisecond.
Definition Minute : Duration := 60 * Second.
Definition Hour : Duration := 60 * Minute.

(** [t.Unix()]: whole seconds since the epoch, rounded down. *)
Definition Unix (t : Time) : Z := t / Second.

(** ** Constants of [main.go] *)

Definition defaultRequestTimeout : Duration := 59 * Second.
Definition garbageCollectorSleep : Duration := 1 * Minute.
Definition garbageCollectorResourceAge : Duration := 15 * Minute.

Definition program : string := "openstack_client".
Definition resourceTag : string := "openstack-client-exporter".

(** Go's [error]: [None] is [nil], [Some msg] an error with that text. *)
Definition error := option string.

(** ** Strings: the library functions [createName] calls *)

(** [strconv.FormatInt(i, 10)]: a minus sign for negative numbers, then
    the decimal digits without leading zeros; ["0"] for zero. *)
Definition FormatInt (i : Z) : string :=
  NilZero.string_of_int (Z.to_int i).

Definition int64_min : Z := - 2 ^ 63.
Definition int64_max : Z := 2 ^ 63 - 1.

(** [strconv.ParseInt(s, 10, 64)]: an optional sign, then at least one
    decimal digit and nothing else; out-of-range values are errors. *)
Definition ParseInt (s : string) : option Z :=
  let magnitude (digits : string) : option Z :=
    Z.of_uint <$> NilZero.uint_of_string digits in
  let value :=
    match s with
    | String "+" digits => magnitude digits
    | String "-" digits => Z.opp <$> magnitude digits
    | _ => magnitude s
    end in
  v ← value;
  if (int64_min <=? v) && (v <=? int64_max) then Some v else None.

(** [strings.Split(s, sep)] for a one-byte separator. *)
Fixpoint Split (sep : ascii) (s : string) : list string :=
  match s with
  | EmptyString => [EmptyString]
  | String c rest =>
      if Ascii.eqb c sep then EmptyString :: Split sep rest
      else match Split sep rest with
           | seg :: segs => String c seg :: segs
           | [] => [String c EmptyString]
           end
  end.

(** [strings.Join(segs, sep)] for a one-byte separator. *)
Fixpoint Join (sep : ascii) (segs : list string) : string :=
  match segs with
  | [] => EmptyString
  | [seg] => seg
  | seg :: rest => seg +:+ String sep (Join sep rest)
  end.

Fixpoint string_of_chars (cs : list ascii) : string :=
  match cs with
  | [] => EmptyString
  | c :: rest => String c (string_of_chars rest)
  end.

Fixpoint contains_char (c : ascii) (s : string) : bool :=
  match s with
  | EmptyString => false
  | String c' rest => Ascii.eqb c' c || contains_char c rest
  end.

Definition is_digit (c : ascii) : bool :=
  let n := N_of_ascii c in (48 <=? n)%N && (n <=? 57)%N.

Fixpoint all_digits (s : string) : bool :=
  match s with
  | EmptyString => true
  | String c rest => is_digit c && all_digits rest
  end.

(** gophercloud's [acceptance/tools.RandomString(prefix, n)], a library
    outside this repository: [n] random bytes, each mapped into the 62
    alphanumerics.  The random bytes are the explicit argument [rand]
    ([rand i] is the i-th byte drawn). *)
Definition alphanum : string :=
  "0123456789ABCDEFGHIJKLMNOPQRSTUVWXYZabcdefghijklmnopqrstuvwxyz".

Definition alphanum_at (b : N) : ascii :=
  default "0"%char
    (String.get (N.to_nat (b mod N.of_nat (String.length alphanum))) alphanum).

Definition RandomString (prefix : string) (n : nat) (rand : nat → N) : string :=
  prefix +:+ string_of_chars ((λ i, alphanum_at (rand i)) <$> seq 0 n).

(** ** [createName] (part_000, lines 121-126)

    The two impure inputs are explicit: the random bytes and the reading
    of the wall clock. *)
Definition createName (rand : nat → N) (now : Time) : string :=
  resourceTag +:+ "-" +:+ RandomString "" 8 rand +:+ "-"
    +:+ FormatInt (Unix now).

(** ** Contexts, the metric store and the world

    A context made by [context.WithTimeout(context.Background(), d)] is
    identified by a number and carries its deadline.  Its [Done] channel
    is closed once the deadline has passed or [cancel] has been called. *)
Record Context := mkContext { ctx_id : nat; ctx_deadline : Time }.

Global Instance Context_eq_dec : EqDecision Context.
Proof. solve_decision. Defined.

(** A [prometheus.GaugeVec] is a handle on shared children: passing it by
    value, as [step] does, still writes to the children the registry
    sees.  The store maps (vector, label value) to the gauge value. *)
Definition GaugeVec := nat.

(** What a call did to its surroundings, in order. *)
Inductive Op :=
  | OpSetGauge (vec : GaugeVec) (label : string) (t : Time)
  | OpPollDone (ctx : nat)
  | OpRecvDone (ctx : nat).

Record World := mkWorld {
  now : Time;
  cancelled : gset nat;
  metrics : gmap (GaugeVec * string) Time;
  ops : list Op
}.

(** Whether [ctx.Done()] is closed.  Go closes the channel from a timer,
    at the deadline or shortly after it; here it counts as closed from
    the deadline on. *)
Definition ctx_done (ctx : Context) (w : World) : bool :=
  bool_decide (ctx_id ctx ∈ cancelled w) || (ctx_deadline ctx <=? now w).

(** [context.WithTimeout(context.Background(), d)] with fresh identity
    [id]: the deadline is [d] from now.  For [d <= 0] Go cancels the
    context before returning it; here its deadline is then not after
    [now], which closes [Done] just the same. *)
Definition WithTimeout (id : nat) (d : Duration) (w : World) : Context :=
  mkContext id (now w + d).

(** The [cancel] function of a context: no effect once it is done. *)
Definition cancel (ctx : Context) (w : World) : World :=
  if ctx_done ctx w then w
  else mkWorld (now w) ({[ctx_id ctx]} ∪ cancelled w) (metrics w) (ops w).

(** Sequential code runs in a state monad over the world; a call either
    returns or blocks for good. *)
Inductive Outcome (A : Type) :=
  | Returned (a : A) (w : World)
  | Blocked.
Arguments Returned {A} a w.
Arguments Blocked {A}.

Definition M (A : Type) : Type := World → Outcome A.

Global Instance M_ret : MRet M := λ A a w, Returned a w.
Global Instance M_bind : MBind M := λ A B k m w,
  match m w with
  | Returned a w' => k a w'
  | Blocked => Blocked
  end.

Definition record (o : Op) (w : World) : World :=
  mkWorld (now w) (cancelled w) (metrics w) (ops w ++ [o]).

(** [vec.With(prometheus.Labels{"step": label}).SetToCurrentTime()] *)
Definition SetToCurrentTime (vec : GaugeVec) (label : string) : M unit :=
  λ w, Returned ()
         (record (OpSetGauge vec label (now w))
            (mkWorld (now w) (cancelled w)
               (<[(vec, label) := now w]> (metrics w)) (ops w))).

(** [<-ctx.Done()] as a statement of its own: waits for the channel. *)
Definition recv_Done (ctx : Context) : M unit :=
  λ w, if ctx_done ctx w then Returned () (record (OpRecvDone (ctx_id ctx)) w)
       else Blocked.

(** [select { case <-ctx.Done(): a  default: b }]: looks at the channel
    once and takes [default] when nothing is ready. *)
Definition select_Done_default {A} (ctx : Context) (a b : M A) : M A :=
  λ w, let w' := record (OpPollDone (ctx_id ctx)) w in
       if ctx_done ctx w then a w' else b w'.

(** ** [step] (main.go lines 104-113, part_000 lines 110-119) *)
Definition step (ctx : Context) (timing : GaugeVec) (name : string) : M error :=
  SetToCurrentTime timing name;;
  select_Done_default ctx
    (mret (Some ("timeout after " +:+ name)))
    (mret None).

(** ** [time.ParseDuration]

    The handler of [Query] takes the parser as a parameter.  The function
    below is the Go parser on inputs without a decimal point:
    [[-+]?([0-9]+unit)+] and the special case ["0"].  Go evaluates
    fractions in float64; strings with a ['.'] are outside this definition
    and come out as errors here, unlike in Go. *)
Definition digit_value (c : ascii) : Z := Z.of_N (N_of_ascii c) - 48.

(** [leadingInt]: the leading digits, with Go's overflow checks. *)
Fixpoint leadingInt (x : Z) (s : string) : option (Z * string) :=
  match s with
  | EmptyString => Some (x, s)
  | String c rest =>
      if is_digit c then
        if 2 ^ 63 / 10 <? x then None
        else let x' := x * 10 + digit_value c in
             if 2 ^ 63 <? x' then None else leadingInt x' rest
      else Some (x, s)
  end.

(** The unit: everything up to the next digit or ['.']. *)
Fixpoint leadingUnit (s : string) : string * string :=
  match s with
  | EmptyString => (EmptyString, EmptyString)
  | String c rest =>
      if is_digit c || Ascii.eqb c "." then (EmptyString, s)
      else let '(u, s') := leadingUnit rest in (String c u, s')
  end.

Definition micro_sign : string := String "194" (String "181" "s").
Definition greek_mu : string := String "206" (String "188" "s").

Definition unitMap (u : string) : option Z :=
  if decide (u = "ns") then Some Nanosecond
  else if decide (u = "us") then Some Microsecond
  else if decide (u = micro_sign) then Some Microsecond
  else if decide (u = greek_mu) then Some Microsecond
  else if decide (u = "ms") then Some Millisecond
  else if decide (u = "s") then Some Second
  else if decide (u = "m") then Some Minute
  else if decide (u = "h") then Some Hour
  else None.

(** The loop [for s != ""] over the groups; every round consumes at least
    the unit, so [String.length s] rounds are enough. *)
Fixpoint parseGroups (fuel : nat) (d : Z) (s : string) : option Z :=
  match s with
  | EmptyString => Some d
  | String c _ =>
      match fuel with
      | O => None
      | S fuel' =>
          if negb (is_digit c) then None
          else
            '(v, s1) ← leadingInt 0 s;
            let '(u, s2) := leadingUnit s1 in
            if decide (u = EmptyString) then None
            else
              unit ← unitMap u;
              if 2 ^ 63 / unit <? v then None
              else let d' := d + v * unit in
                   if 2 ^ 63 <? d' then None else parseGroups fuel' d' s2
      end
  end.

Definition ParseDuration_integral (orig : string) : option Duration :=
  let '(neg, s) :=
    match orig with
    | String "-" s' => (true, s')
    | String "+" s' => (false, s')
    | _ => (false, orig)
    end in
  if decide (s = "0") then Some 0
  else if decide (s = EmptyString) then None
  else
    d ← parseGroups (String.length s) 0 s;
    if neg then Some (- d)
    else if int64_max <? d then None else Some d.

(** ** The provider client

    [openstack.NewClient] and [openstack.AuthenticateV3] belong to
    gophercloud and are parameters.  [AuthenticateV3] works on the client
    through its pointer, so it returns the client it leaves behind. *)
Record Scope := mkScope { ProjectName : string; ScopeDomainName : string }.

Record AuthOptions := mkAuthOptions {
  Username : string;
  DomainName : string;
  Password : string;
  AuthScope : Scope
}.

Record ProviderClient := mkProviderClient {
  IdentityEndpoint : string;
  TokenID : string;
  ClientContext : option Context
}.

Definition Environ := string → string.

Definition authOptions (Getenv : Environ) : AuthOptions :=
  mkAuthOptions (Getenv "OS_USERNAME") (Getenv "OS_USER_DOMAIN_NAME")
    (Getenv "OS_PASSWORD")
    (mkScope (Getenv "OS_PROJECT_NAME") (Getenv "OS_PROJECT_DOMAIN_NAME")).

(** ** Goroutines, the wait group and the handler

    The handler and the goroutines it starts are straight-line code; they
    are written as instruction lists and interleaved by a schedule.  The
    probes [spawnMain] and [objectStoreMain] live in files of their own:
    a probe is running from the moment its goroutine exists until the
    schedule lets its call return. *)
Inductive Probe := spawnMain | objectStoreMain.

Global Instance Probe_eq_dec : EqDecision Probe.
Proof. solve_decision. Defined.

Inductive GInstr :=
  | GNow                (* start := time.Now() *)
  | GCall               (* probe(ctx, registry) *)
  | GWgDone             (* wg.Done() *)
  | GLog.               (* log.Printf("... finished in %v", time.Since(start)) *)

Global Instance GInstr_eq_dec : EqDecision GInstr.
Proof. solve_decision. Defined.

(** The context a goroutine hands to its probe: the handler's variable
    [ctx], which is what both handlers write, or a context of its own made
    where the goroutine is started,
    [context.WithTimeout(context.Background(), d)]. *)
Inductive CtxArg :=
  | CtxVar
  | CtxOwn (d : Duration).

Inductive HInstr :=
  | HWithTimeout (d : Duration)   (* ctx, cancel := context.WithTimeout(Background(), d) *)
  | HWgAdd (n : Z)                (* wg.Add(n) *)
  | HGoWith (arg : CtxArg) (p : Probe) (body : list GInstr)
                                  (* go func() { body }(), the probe getting arg *)
  | HWgWait                       (* wg.Wait() *)
  | HServe                        (* promhttp.HandlerFor(registry, ...).ServeHTTP(w, r) *)
  | HCancel.                      (* the deferred cancel() *)

(** [go func() { ... probe(ctx, registry) ... }()] *)
Abbreviation HGo := (HGoWith CtxVar).

Record Goroutine := mkGoroutine {
  g_probe : Probe;
  g_ctx : Context;
  g_code : list GInstr            (* what is left to run *)
}.

(** The probe call of a goroutine has not returned yet. *)
Definition probe_running (g : Goroutine) : bool :=
  bool_decide (GCall ∈ g_code g).

(** The goroutines whose probe is running. *)
Definition running (gs : list Goroutine) : list Goroutine :=
  filter (λ g, probe_running g = true) gs.

Definition count_done (code : list GInstr) : nat :=
  length (filter (λ i, i = GWgDone) code).

Record State := mkState {
  world : World;
  hpc : nat;                      (* handler's next instruction *)
  hctx : option Context;          (* the handler's variable ctx *)
  created : list Context;         (* every context made so far *)
  wg : Z;                         (* the WaitGroup counter *)
  pool : list Goroutine;          (* goroutines started, oldest first *)
  response : option (list Probe)  (* once the response is written: the
                                     probes that were running then *)
}.

Definition init (t0 : Time) : State :=
  mkState (mkWorld t0 ∅ ∅ []) 0 None [] 0 [] None.

(** One instruction of the handler.  [None]: it cannot move (it waits, or
    it has returned). *)
Definition hstep (prog : list HInstr) (s : State) : option State :=
  i ← prog !! hpc s;
  let pc := S (hpc s) in
  match i with
  | HWithTimeout d =>
      let ctx := WithTimeout (length (created s)) d (world s) in
      Some (mkState (world s) pc (Some ctx) (created s ++ [ctx]) (wg s)
              (pool s) (response s))
  | HWgAdd n =>
      Some (mkState (world s) pc (hctx s) (created s) (wg s + n) (pool s)
              (response s))
  | HGoWith CtxVar p body =>
      ctx ← hctx s;
      Some (mkState (world s) pc (hctx s) (created s) (wg s)
              (pool s ++ [mkGoroutine p ctx body]) (response s))
  | HGoWith (CtxOwn d) p body =>
      let ctx := WithTimeout (length (created s)) d (world s) in
      Some (mkState (world s) pc (hctx s) (created s ++ [ctx]) (wg s)
              (pool s ++ [mkGoroutine p ctx body]) (response s))
  | HWgWait =>
      if decide (wg s = 0)
      then Some (mkState (world s) pc (hctx s) (created s) (wg s) (pool s)
                   (response s))
      else None
  | HServe =>
      Some (mkState (world s) pc (hctx s) (created s) (wg s) (pool s)
              (Some (g_probe <$> running (pool s))))
  | HCancel =>
      ctx ← hctx s;
      Some (mkState (cancel ctx (world s)) pc (hctx s) (created s) (wg s)
              (pool s) (response s))
  end.

(** One instruction of goroutine [k].  [wg.Done()] on a counter that is
    not positive panics; the goroutine gets no further. *)
Definition gstep (k : nat) (s : State) : option State :=
  g ← pool s !! k;
  match g_code g with
  | [] => None
  | i :: rest =>
      let pool' := <[k := mkGoroutine (g_probe g) (g_ctx g) rest]> (pool s) in
      match i with
      | GWgDone =>
          if decide (0 < wg s)
          then Some (mkState (world s) (hpc s) (hctx s) (created s)
                       (wg s - 1) pool' (response s))
          else None
      | _ =>
          Some (mkState (world s) (hpc s) (hctx s) (created s) (wg s) pool'
                  (response s))
      end
  end.

(** Time passing. *)
Definition tick (d : N) (s : State) : State :=
  let w := world s in
  mkState (mkWorld (now w + Z.of_N d) (cancelled w) (metrics w) (ops w))
    (hpc s) (hctx s) (created s) (wg s) (pool s) (response s).

Inductive Event := EvHandler | EvGoroutine (k : nat) | EvTick (d : N).

Definition exec (prog : list HInstr) (e : Event) (s : State) : option State :=
  match e with
  | EvHandler => hstep prog s
  | EvGoroutine k => gstep k s
  | EvTick d => Some (tick d s)
  end.

(** A schedule is run from left to right; an event whose thread cannot
    move is skipped. *)
Fixpoint run (prog : list HInstr) (sched : list Event) (s : State) : State :=
  match sched with
  | [] => s
  | e :: rest => run prog rest (default s (exec prog e s))
  end.

(** ** The handler and [getProvider] of src/main.go *)
Module Query.

(** [url.Values] and its [Get]: the first value of the key, or [""]. *)
Definition Values := gmap string (list string).

Definition Get (v : Values) (key : string) : string :=
  match v !! key with
  | Some (x :: _) => x
  | _ => EmptyString
  end.

Section Handler.
Variable ParseDuration : string → option Duration.

(** Lines 37-48: the local [requestTimeout]. *)
Definition requestTimeout (query : Values) : Duration :=
  let timeoutParam := Get query "timeout" in
  if decide (timeoutParam ≠ EmptyString) then
    match ParseDuration timeoutParam with
    | Some value => value
    | None => defaultRequestTimeout
    end
  else defaultRequestTimeout.

(** Lines 54-75.  Setting up the registry and logging are left out. *)
Definition metricsHandler (query : Values) : list HInstr :=
  [ HWithTimeout (requestTimeout query);
    HWgAdd 1;
    HGo spawnMain [GCall; GWgDone];
    HWgAdd 1;
    HGo objectStoreMain [GCall; GWgDone];
    HWgWait;
    HServe;
    HCancel ].
End Handler.

Section Provider.
Variable NewClient : string → ProviderClient + string.
Variable AuthenticateV3 : ProviderClient → AuthOptions → ProviderClient * error.

(** Lines 78-102. *)
Definition getProvider (Getenv : Environ) : option ProviderClient * error :=
  let opts := authOptions Getenv in
  match NewClient (Getenv "OS_AUTH_URL") with
  | inr err => (None, Some ("cannot create OpenStack client: " +:+ err))
  | inl provider =>
      match AuthenticateV3 provider opts with
      | (_, Some err) => (None, Some ("authentication failure: " +:+ err))
      | (provider, None) => (Some provider, None)
      end
  end.
End Provider.

End Query.

(** ** The handler and [getProvider] of src/unnamed/part_000 *)
Module Flags.

(** The package-level variables that [main] fills from the flags. *)
Record Config := mkConfig {
  requestTimeout : Duration;
  flavorName : string;
  imageName : string;
  internalNetwork : string;
  externalNetwork : string;
  userName : string;
  disableObjectStore : bool;
  disableInstance : bool
}.

(** The defaults given to [flag.DurationVar] and friends. *)
Definition defaults : Config :=
  mkConfig (59 * Second) "t2.small" "ubuntu-16.04-x86_64" "private"
    "internet" "ubuntu" false false.

(** Lines 49-78.  [wg.Wait()] stands inside the second [if].  Setting
    up the registry is left out. *)
Definition metricsHandler (cfg : Config) : list HInstr :=
  [ HWithTimeout (requestTimeout cfg) ]
  ++ (if negb (disableInstance cfg)
      then [ HWgAdd 1; HGo spawnMain [GNow; GCall; GWgDone; GLog] ]
      else [])
  ++ (if negb (disableObjectStore cfg)
      then [ HWgAdd 1; HGo objectStoreMain [GNow; GCall; GWgDone; GLog];
             HWgWait ]
      else [])
  ++ [ HServe; HCancel ].

(** [metricsHandler(w, r)] as a function of the request too.  The request
    [r] is handed on to [ServeHTTP] and not looked at otherwise: its query
    is never read. *)
Definition metricsHandler_for (cfg : Config)
    (query : gmap string (list string)) : list HInstr :=
  metricsHandler cfg.

Section Provider.
Variable NewClient : string → ProviderClient + string.
Variable AuthenticateV3 : ProviderClient → AuthOptions → ProviderClient * error.

(** Lines 81-108. *)
Definition getProvider (ctx : Context) (Getenv : Environ)
    : option ProviderClient * error :=
  let opts := authOptions Getenv in
  match NewClient (Getenv "OS_AUTH_URL") with
  | inr err => (None, Some ("cannot create OpenStack client: " +:+ err))
  | inl provider =>
      let provider :=
        mkProviderClient (IdentityEndpoint provider) (TokenID provider)
          (Some ctx) in
      match AuthenticateV3 provider opts with
      | (_, Some err) => (None, Some ("authentication failure: " +:+ err))
      | (provider, None) => (Some provider, None)
      end
  end.
End Provider.

End Flags.

(** ** The garbage collector's test *)

(** Modelled from the spec: [runGarbageCollector] and its sweep are in a
    file that is not available.  The age of a resource (GCCandidate) is
    "now - creation timestamp parsed from ResourceName"; the timestamp is
    the last segment of the name, in seconds. *)
Definition resource_age (t : Time) (name : string) : option Duration :=
  created_at ← last (Split "-" name) ≫= ParseInt;
  Some (t - created_at * Second).

(** Modelled from the spec: the sweep's decision for one resource (4.5),
    "filter to those whose name carries the fixed tag, compute age from
    the embedded timestamp, and delete every candidate whose age exceeds a
    fixed retention threshold". *)
Definition gc_deletes (t : Time) (name : string) : bool :=
  String.prefix resourceTag name
  && match resource_age t name with
     | Some age => garbageCollectorResourceAge <? age
     | None => false
     end.

(** ** Reading handler code

    What the instructions still to run will start, add and wait for.
    These functions look at code only; the lemmas below connect them
    with the states a run goes through. *)

(** The probes the code starts, in order. *)
Fixpoint spawned (code : list HInstr) : list Probe :=
  match code with
  | [] => []
  | HGoWith _ p _ :: rest => p :: spawned rest
  | _ :: rest => spawned rest
  end.

(** In a goroutine body every probe call is followed by a [wg.Done()]. *)
Fixpoint call_before_done (code : list GInstr) : bool :=
  match code with
  | [] => true
  | i :: rest =>
      (if decide (i = GCall) then bool_decide (GWgDone ∈ rest) else true)
      && call_before_done rest
  end.

(** [wait_covers a d u code]: having added [a] to the wait group, started
    goroutines that call [Done] [d] times in all, and started [u]
    goroutines since the last [Wait], the code reaches every [Wait] with
    [a = d] and every [Serve] with [u = 0]. *)
Fixpoint wait_covers (a d : Z) (u : nat) (code : list HInstr) : bool :=
  match code with
  | [] => true
  | HWgAdd n :: rest => wait_covers (a + n) d u rest
  | HGoWith _ _ body :: rest =>
      call_before_done body
      && wait_covers a (d + Z.of_nat (count_done body)) (S u) rest
  | HWgWait :: rest => (a =? d) && wait_covers a d 0 rest
  | HServe :: rest => Nat.eqb u 0 && wait_covers a d u rest
  | _ :: rest => wait_covers a d u rest
  end.

Fixpoint no_WithTimeout (code : list HInstr) : bool :=
  match code with
  | [] => true
  | HWithTimeout _ :: _ => false
  | HGoWith (CtxOwn _) _ _ :: _ => false
  | _ :: rest => no_WithTimeout rest
  end.

(** Nothing is started after the response. *)
Fixpoint quiet_after_serve (code : list HInstr) : bool :=
  match code with
  | [] => true
  | HServe :: rest => bool_decide (spawned rest = []) && quiet_after_serve rest
  | _ :: rest => quiet_after_serve rest
  end.

(** [wg.Done()] calls the goroutines of the pool still have to make. *)
Definition outstanding (gs : list Goroutine) : Z :=
  foldr (λ g acc, Z.of_nat (count_done (g_code g)) + acc) 0 gs.

(** A schedule that lets the handler start what it starts, lets two
    goroutines run to their end, and lets the handler finish. *)
Definition to_completion : list Event :=
  repeat EvHandler 5 ++ repeat (EvGoroutine 0) 4 ++ repeat (EvGoroutine 1) 4
    ++ repeat EvHandler 3.

(** ** Invariants of a run *)

(** The invariant of the wait group: the counter is what the pool still
    owes plus what the handler has added ahead of starting; no more
    probes are running than were started since the last [Wait]; what is
    left of the handler keeps its [Wait]s and [Serve]s covered; a response
    already written was written with no probe running. *)
Definition covered (prog : list HInstr) (s : State) : Prop :=
  ∃ (a d : Z) (u : nat),
    wg s = outstanding (pool s) + a - d
    ∧ (length (running (pool s)) ≤ u)%nat
    ∧ wait_covers a d u (drop (hpc s) prog) = true
    ∧ Forall (λ g, call_before_done (g_code g) = true) (pool s)
    ∧ (response s = None ∨ response s = Some []).

(** The invariant of the context: before its first instruction the
    handler has made no context and started nothing; afterwards there is
    exactly the context made at some instant [t] with deadline [t + d],
    the variable [ctx] holds it, and every goroutine was given it. *)
Definition one_context (d : Duration) (t0 : Time) (prog : list HInstr)
    (s : State) : Prop :=
  t0 ≤ now (world s)
  ∧ ((hpc s = 0%nat ∧ created s = [] ∧ pool s = [] ∧ hctx s = None
      ∧ response s = None)
     ∨ (∃ t : Time,
          t0 ≤ t ≤ now (world s)
          ∧ created s = [mkContext 0 (t + d)]
          ∧ hctx s = Some (mkContext 0 (t + d))
          ∧ Forall (λ g, g_ctx g = mkContext 0 (t + d)) (pool s)
          ∧ no_WithTimeout (drop (hpc s) prog) = true)).

(** One deadline for the whole request, for a handler whose timeout is
    [d] and whose clock starts at [t0]: at most one context, made with
    that timeout, held by every goroutine. *)
Definition shares_one_deadline (d : Duration) (t0 : Time) (s : State) : Prop :=
  (length (created s) ≤ 1)%nat
  ∧ (∀ c, c ∈ created s → ∃ t, t0 ≤ t ≤ now (world s) ∧ ctx_deadline c = t + d)
  ∧ (∀ g, g ∈ pool s → created s = [g_ctx g] ∧ hctx s = Some (g_ctx g))
  ∧ (is_Some (response s) → length (created s) = 1%nat).

(** The invariant of the probes: those started and those still to be
    started are together the ones the code starts; nothing is started
    after the response. *)
Definition starts (prog : list HInstr) (s : State) : Prop :=
  (g_probe <$> pool s) ++ spawned (drop (hpc s) prog) = spawned prog
  ∧ quiet_after_serve (drop (hpc s) prog) = true
  ∧ (is_Some (response s) → spawned (drop (hpc s) prog) = []).

(** What the flags ask for. *)
Definition enabled (cfg : Flags.Config) : list Probe :=
  (if Flags.disableInstance cfg then [] else [spawnMain])
  ++ (if Flags.disableObjectStore cfg then [] else [objectStoreMain]).

(** ** The environment listing of [main] (part_000, lines 146-149) *)

(** [strings.Cut(s, sep)] for a one-byte separator: the text before and
    after its first occurrence. *)
Fixpoint cut (sep : ascii) (s : string) : option (string * string) :=
  match s with
  | EmptyString => None
  | String c rest =>
      if Ascii.eqb c sep then Some (EmptyString, rest)
      else '(before, after) ← cut sep rest; Some (String c before, after)
  end.

(** [strings.SplitN(s, sep, n)] for a one-byte separator and [n >= 0]: at
    most [n] pieces, the last one being the unsplit remainder. *)
Fixpoint SplitN (sep : ascii) (n : nat) (s : string) : list string :=
  match n with
  | O => []
  | S O => [s]
  | S n' =>
      match cut sep s with
      | Some (before, after) => before :: SplitN sep n' after
      | None => [s]
      end
  end.

(** The loop over [os.Environ()]: what [fmt.Println(pair[0])] prints, one
    line per entry.  [None]: the index [pair[0]] is out of range and the
    program panics. *)
Definition printEnvironNames (environ : list string) : option (list string) :=
  mapM (λ e, let pair := SplitN "=" 2 e in pair !! 0%nat) environ.

(** ** More on the code of the handlers *)

(** The assignment [provider.Context = ctx]. *)
Definition with_context (ctx : Context) (p : ProviderClient) : ProviderClient :=
  mkProviderClient (IdentityEndpoint p) (TokenID p) (Some ctx).

(** [wait_returns a d code]: having added [a] and started goroutines that
    call [Done] [d] times, the code never adds a negative number, never
    starts a goroutine whose [Done]s are not added yet, and reaches every
    [Wait] with [a = d]. *)
Fixpoint wait_returns (a d : Z) (code : list HInstr) : bool :=
  match code with
  | [] => true
  | HWgAdd n :: rest => (0 <=? n) && wait_returns (a + n) d rest
  | HGoWith _ _ body :: rest =>
      (d + Z.of_nat (count_done body) <=? a)
      && wait_returns a (d + Z.of_nat (count_done body)) rest
  | HWgWait :: rest => (a =? d) && wait_returns a d rest
  | _ :: rest => wait_returns a d rest
  end.

(** The invariant of the counter: it is what the pool still owes plus
    what was added ahead, and that surplus is never negative. *)
Definition balanced (prog : list HInstr) (s : State) : Prop :=
  ∃ a d : Z,
    wg s = outstanding (pool s) + a - d
    ∧ d ≤ a
    ∧ wait_returns a d (drop (hpc s) prog) = true.

(** Instructions still to be run: by the handler, counting the bodies of
    the goroutines it will start, and by the goroutines of the pool. *)
Fixpoint weight (code : list HInstr) : nat :=
  match code with
  | [] => 0
  | HGoWith _ _ body :: rest => S (length body + weight rest)
  | _ :: rest => S (weight rest)
  end.

Fixpoint pool_weight (gs : list Goroutine) : nat :=
  match gs with
  | [] => 0
  | g :: rest => length (g_code g) + pool_weight rest
  end.

Definition remaining (prog : list HInstr) (s : State) : nat :=
  weight (drop (hpc s) prog) + pool_weight (pool s).

(** The handler function has returned. *)
Definition returned (prog : list HInstr) (s : State) : Prop :=
  hpc s = length prog.

Definition is_tick (e : Event) : bool :=
  match e with EvTick _ => true | _ => false end.

(** What a run needs to be able to go on: the counter is balanced, the
    context exists from the first instruction on, the handler is inside
    its code, and the response is written or still to come. *)
Definition can_go_on (d : Duration) (t0 : Time) (prog : list HInstr)
    (s : State) : Prop :=
  balanced prog s
  ∧ one_context d t0 prog s
  ∧ (hpc s ≤ length prog)%nat
  ∧ (is_Some (response s) ∨ HServe ∈ drop (hpc s) prog).

(** [wg.Done()] is safe in a state: the counter is not negative, and a
    goroutine about to call [Done] finds it positive and can move. *)
Definition counter_safe (s : State) : Prop :=
  0 ≤ wg s
  ∧ ∀ k g rest, pool s !! k = Some g → g_code g = GWgDone :: rest →
      0 < wg s ∧ is_Some (gstep k s).

(** From a state the handler can be brought to its end by moves of the
    handler and the goroutines alone, in no more moves than there are
    instructions left, and the response is written by then. *)
Definition finishes (prog : list HInstr) (s : State) : Prop :=
  ∃ cont : list Event,
    Forall (λ e, is_tick e = false) cont
    ∧ (length cont ≤ remaining prog s)%nat
    ∧ returned prog (run prog cont s)
    ∧ is_Some (response (run prog cont s)).

(** Once the handler has returned, every context it made is done, and so
    is the context of every goroutine. *)
Definition released (prog : list HInstr) (s : State) : Prop :=
  returned prog s →
  (∀ c, c ∈ created s → ctx_done c (world s) = true)
  ∧ (∀ g, g ∈ pool s → ctx_done (g_ctx g) (world s) = true).

Fixpoint all_chars (P : ascii → bool) (s : string) : bool :=
  match s with
  | EmptyString => true
  | String c rest => P c && all_chars P rest
  end.

Definition alnum_or_dash (c : ascii) : bool :=
  bool_decide (c = "-"%char) || contains_char c alphanum.

(** From a state, moves of the handler and the goroutines alone lead to a
    state with the property. *)
Definition reaches (prog : list HInstr) (s : State) (P : State → Prop) : Prop :=
  ∃ cont : list Event,
    Forall (λ e, is_tick e = false) cont ∧ P (run prog cont s).

(** One context for the whole request, made by the handler and handed to
    every probe: in state [s] of a run of [prog] that began at [t0],
    [shares_one_deadline] holds; if the handler has not moved yet, its
    first move is possible and makes the context with timeout [d];
    once it has moved there is exactly one context, held by the variable
    [ctx]; and the run can go on to a state where the response is
    written, there still is exactly one context, the goroutines started
    are those of [probes], and each of them holds that context. *)
Definition context_for_all (d : Duration) (t0 : Time) (prog : list HInstr)
    (probes : list Probe) (s : State) : Prop :=
  shares_one_deadline d t0 s
  ∧ (hpc s = 0%nat →
     ∃ s', hstep prog s = Some s'
           ∧ created s' = [WithTimeout 0 d (world s)]
           ∧ hctx s' = Some (WithTimeout 0 d (world s)))
  ∧ ((0 < hpc s)%nat → ∃ c, created s = [c] ∧ hctx s = Some c)
  ∧ reaches prog s (λ s',
      is_Some (response s')
      ∧ ∃ c, created s' = [c]
             ∧ g_probe <$> pool s' = probes
             ∧ g_ctx <$> pool s' = replicate (length probes) c).

(** * Properties *)

(** ** Strings *)

Lemma append_String (c : ascii) (a b : string) :
  String c a +:+ b = String c (a +:+ b).
Proof. reflexivity. Qed.

Lemma Split_nonempty (sep : ascii) (s : string) : Split sep s ≠ [].
Proof.
  induction s as [|c s IH]; simpl; [done|].
  destruct (Ascii.eqb c sep); [done|].
  by destruct (Split sep s).
Qed.

(** Splitting distributes over a separator in the middle. *)
Lemma Split_app_sep (sep : ascii) (a b : string) :
  Split sep (a +:+ String sep b) = Split sep a ++ Split sep b.
Proof.
  induction a as [|c a IH].
  - simpl. change (EmptyString +:+ String sep b) with (String sep b).
    simpl. by rewrite Ascii.eqb_refl.
  - rewrite append_String. simpl. rewrite IH.
    destruct (Ascii.eqb c sep); [done|].
    pose proof (Split_nonempty sep a) as Hne.
    by destruct (Split sep a).
Qed.

Lemma Split_no_sep (sep : ascii) (s : string) :
  contains_char sep s = false → Split sep s = [s].
Proof.
  induction s as [|c s IH]; simpl; [done|].
  intros [Hc Hs]%orb_false_elim. rewrite Hc, IH; done.
Qed.

Lemma all_digits_no_minus (s : string) :
  all_digits s = true → contains_char "-" s = false.
Proof.
  induction s as [|c s IH]; simpl; [done|].
  intros [Hc Hs]%andb_true_iff. rewrite IH by done.
  destruct (Ascii.eqb_spec c "-") as [->|]; [discriminate Hc | done].
Qed.

Lemma string_of_uint_digits (d : Decimal.uint) :
  all_digits (NilEmpty.string_of_uint d) = true.
Proof. induction d; simpl; try done; by rewrite IHd. Qed.

(** A non-negative number prints as digits only. *)
Lemma FormatInt_digits (z : Z) : 0 ≤ z → all_digits (FormatInt z) = true.
Proof.
  intros Hz. unfold FormatInt. destruct z as [|p|p]; [done| |lia].
  simpl. unfold NilZero.string_of_uint.
  pose proof (string_of_uint_digits (Pos.to_uint p)) as Hd.
  by destruct (Pos.to_uint p).
Qed.

Lemma ParseInt_unsigned (c : ascii) (s : string) :
  is_digit c = true →
  ParseInt (String c s) =
    (v ← Z.of_uint <$> NilZero.uint_of_string (String c s);
     if (int64_min <=? v) && (v <=? int64_max) then Some v else None).
Proof.
  destruct c as [[] [] [] [] [] [] [] []]; try discriminate; reflexivity.
Qed.

(** Printing and parsing back gives the number, for what fits an int64. *)
Lemma ParseInt_FormatInt (z : Z) :
  0 ≤ z ≤ int64_max → ParseInt (FormatInt z) = Some z.
Proof.
  intros [Hz Hmax].
  assert (Hrange : (int64_min <=? z) && (z <=? int64_max) = true).
  { apply andb_true_iff. unfold int64_min in *. split; apply Z.leb_le; lia. }
  destruct z as [|p|p]; [by vm_compute| |lia].
  pose proof (FormatInt_digits (Z.pos p) Hz) as Hd.
  unfold FormatInt in *. simpl in *.
  assert (Hnn : Pos.to_uint p ≠ Decimal.Nil) by apply Unsigned.to_uint_nonnil.
  destruct (NilZero.string_of_uint (Pos.to_uint p)) as [|c s] eqn:Hs.
  { unfold NilZero.string_of_uint in Hs. by destruct (Pos.to_uint p). }
  simpl in Hd. apply andb_true_iff in Hd as [Hc _].
  rewrite (ParseInt_unsigned c s Hc), <- Hs, (NilZero.usu _ Hnn). simpl.
  unfold Z.of_uint. rewrite Unsigned.of_to. simpl.
  by rewrite Hrange.
Qed.

Lemma alphanum_at_no_minus (b : N) : alphanum_at b ≠ "-"%char.
Proof.
  unfold alphanum_at.
  assert (Hlt : (N.to_nat (b mod N.of_nat (String.length alphanum)) < 62)%nat).
  { pose proof (N.mod_upper_bound b (N.of_nat (String.length alphanum))) as Hb.
    change (N.of_nat (String.length alphanum)) with 62%N in *. lia. }
  revert Hlt. generalize (N.to_nat (b mod N.of_nat (String.length alphanum))).
  intros k Hk.
  do 62 (destruct k as [|k]; [by vm_compute|]). lia.
Qed.

Lemma string_of_chars_no_minus (cs : list ascii) :
  Forall (λ c, c ≠ "-"%char) cs → contains_char "-" (string_of_chars cs) = false.
Proof.
  induction 1 as [|c cs Hc _ IH]; simpl; [done|].
  rewrite IH. by destruct (Ascii.eqb_spec c "-").
Qed.

Lemma string_of_chars_length (cs : list ascii) :
  String.length (string_of_chars cs) = length cs.
Proof. induction cs; simpl; congruence. Qed.

(** The random suffix has the length asked for and no ['-']. *)
Lemma RandomString_no_minus (n : nat) (rand : nat → N) :
  contains_char "-" (RandomString "" n rand) = false.
Proof.
  unfold RandomString.
  change (EmptyString +:+ ?s) with s.
  apply string_of_chars_no_minus, Forall_fmap, Forall_forall.
  intros i _. apply alphanum_at_no_minus.
Qed.

Lemma RandomString_length (n : nat) (rand : nat → N) :
  String.length (RandomString "" n rand) = n.
Proof.
  unfold RandomString. change (EmptyString +:+ ?s) with s.
  by rewrite string_of_chars_length, length_fmap, length_seq.
Qed.

Lemma createName_segments (rand : nat → N) (t : Time) :
  0 ≤ t →
  Split "-" (createName rand t) =
    Split "-" resourceTag ++ [RandomString "" 8 rand; FormatInt (Unix t)].
Proof.
  intros Ht.
  change (createName rand t) with
    (resourceTag +:+ String "-"
       (RandomString "" 8 rand +:+ String "-" (FormatInt (Unix t)))).
  rewrite !Split_app_sep.
  rewrite (Split_no_sep _ _ (RandomString_no_minus 8 rand)).
  rewrite (Split_no_sep "-" (FormatInt (Unix t))); [done|].
  apply all_digits_no_minus, FormatInt_digits.
  unfold Unix, Second, Millisecond, Microsecond, Nanosecond.
  apply Z.div_pos; lia.
Qed.

Lemma Unix_bounds (t : Time) : Unix t * Second ≤ t < Unix t * Second + Second.
Proof.
  unfold Unix, Second, Millisecond, Microsecond, Nanosecond.
  pose proof (Z.mod_pos_bound t (1000 * (1000 * (1000 * 1)))) as Hm.
  pose proof (Z.div_mod t (1000 * (1000 * (1000 * 1)))) as Hd. lia.
Qed.

Lemma Unix_nonneg (t : Time) : 0 ≤ t → 0 ≤ Unix t.
Proof.
  intros Ht. unfold Unix, Second, Millisecond, Microsecond, Nanosecond.
  apply Z.div_pos; lia.
Qed.

(** C3.  Every name [createName] returns, for a wall clock at or after the
    Unix epoch whose seconds fit an int64, has the form
    tag-suffix-timestamp: it starts with [resourceTag] and a ['-']; cut
    at the ['-']s, it consists of the segments of the tag, then the random
    suffix of eight characters, then the timestamp; what stands before the
    last two segments is exactly [resourceTag]; the last segment parses
    back to the Unix time of the creation instant, which lies less than
    one second before that instant. *)
Theorem createName_form (rand : nat → N) (t : Time) :
  0 ≤ t → Unix t ≤ int64_max →
  let name := createName rand t in
  let segs := Split "-" name in
  let suffix := RandomString "" 8 rand in
  String.prefix (resourceTag +:+ "-") name = true
  ∧ String.length suffix = 8%nat
  ∧ segs = Split "-" resourceTag ++ [suffix; FormatInt (Unix t)]
  ∧ Join "-" (take (length segs - 2) segs) = resourceTag
  ∧ (last segs ≫= ParseInt) = Some (Unix t)
  ∧ Unix t * Second ≤ t < Unix t * Second + Second.
Proof.
  intros Ht Hmax name segs suffix.
  assert (Hsegs : segs = Split "-" resourceTag ++ [suffix; FormatInt (Unix t)])
    by (by apply createName_segments).
  split_and!.
  - reflexivity.
  - apply RandomString_length.
  - exact Hsegs.
  - rewrite Hsegs. reflexivity.
  - rewrite Hsegs. simpl. apply ParseInt_FormatInt.
    split; [by apply Unix_nonneg | done].
  - apply Unix_bounds.
  - apply Unix_bounds.
Qed.

(** Before the epoch the seconds are negative and print with a ['-'] of
    their own, which the cut at the last ['-'] takes for a separator. *)
Example createName_before_epoch :
  last (Split "-" (createName (λ _, 0%N) (-1))) = Some "1"
  ∧ Unix (-1) = -1.
Proof. by vm_compute. Qed.

Lemma createName_form_witness :
  let t := 1540000000123456789 in
  let name := createName (λ i, N.of_nat (i * 37 + 45)) t in
  name = "openstack-client-exporter-jKvW7iJu-1540000000"
  ∧ (last (Split "-" name) ≫= ParseInt) = Some 1540000000.
Proof.
  split; [by vm_compute|].
  refine (proj1 (proj2 (proj2 (proj2 (proj2
    (createName_form (λ i, N.of_nat (i * 37 + 45)) 1540000000123456789 _ _)))))).
  - lia.
  - by vm_compute.
Defined.

(** ** The step timer *)

Lemma step_unfold (ctx : Context) (timing : GaugeVec) (name : string) (w : World) :
  step ctx timing name w =
    Returned (if ctx_done ctx w then Some ("timeout after " +:+ name) else None)
      (mkWorld (now w) (cancelled w) (<[(timing, name) := now w]> (metrics w))
         (ops w ++ [OpSetGauge timing name (now w); OpPollDone (ctx_id ctx)])).
Proof.
  unfold step, mbind, M_bind, SetToCurrentTime, select_Done_default, mret,
    M_ret, record, ctx_done. simpl.
  rewrite <- app_assoc. simpl. by destruct (_ || _).
Qed.

(** C2.  [step] sets the gauge of the step name to the current time
    whatever the state of the context, leaves the other gauges alone, and
    returns an error exactly when the context is done when it looks: the
    error is "timeout after <name>", and otherwise the result is [nil]. *)
Theorem step_publishes_then_checks
    (ctx : Context) (timing : GaugeVec) (name : string) (w : World) :
  ∃ (err : error) (w' : World),
    step ctx timing name w = Returned err w'
    ∧ metrics w' !! (timing, name) = Some (now w)
    ∧ (∀ k, k ≠ (timing, name) → metrics w' !! k = metrics w !! k)
    ∧ (is_Some err ↔ ctx_done ctx w = true)
    ∧ err = (if ctx_done ctx w then Some ("timeout after " +:+ name) else None).
Proof.
  eexists _, _. split; [apply step_unfold|]. simpl. split_and!.
  - apply lookup_insert_eq.
  - intros k Hk. by apply lookup_insert_ne.
  - destruct (ctx_done ctx w); split; intros H; try done; by destruct H.
  - done.
Qed.

(** After the deadline the timestamp is still published. *)
Example step_after_deadline :
  step (mkContext 0 100) 3%nat "boot" (mkWorld 150 ∅ ∅ []) =
    Returned (Some "timeout after boot")
      (mkWorld 150 ∅ {[ (3%nat, "boot") := 150 ]}
         [OpSetGauge 3%nat "boot" 150; OpPollDone 0]).
Proof. by rewrite step_unfold. Qed.

Example step_before_deadline :
  step (mkContext 0 100) 3%nat "boot" (mkWorld 50 ∅ ∅ []) =
    Returned None
      (mkWorld 50 ∅ {[ (3%nat, "boot") := 50 ]}
         [OpSetGauge 3%nat "boot" 50; OpPollDone 0]).
Proof. by rewrite step_unfold. Qed.

(** Receiving from [Done] outside a [select] with [default] does wait. *)
Lemma recv_Done_blocks (ctx : Context) (w : World) :
  ctx_done ctx w = false → recv_Done ctx w = Blocked.
Proof. unfold recv_Done. by intros ->. Qed.

(** C8.  [step] returns for every context and every world, done or not:
    it never blocks, the clock it leaves is the clock it found, and all
    it did is one gauge write followed by one look at [Done]; nothing is
    repeated. *)
Theorem step_never_blocks
    (ctx : Context) (timing : GaugeVec) (name : string) (w : World) :
  step ctx timing name w ≠ Blocked
  ∧ ∃ (err : error) (w' : World),
      step ctx timing name w = Returned err w'
      ∧ now w' = now w
      ∧ ops w' = ops w ++ [OpSetGauge timing name (now w); OpPollDone (ctx_id ctx)].
Proof.
  rewrite step_unfold. split; [done|]. by eexists _, _.
Qed.

(** ** The provider client *)

(** X11.  [getProvider] of main.go takes no context: the client keeps whatever
    context [NewClient] and [AuthenticateV3] gave it. *)
Lemma Query_getProvider_context
    (NewClient : string → ProviderClient + string)
    (AuthenticateV3 : ProviderClient → AuthOptions → ProviderClient * error)
    (Getenv : Environ) (provider : ProviderClient) :
  (∀ p o, ClientContext (AuthenticateV3 p o).1 = ClientContext p) →
  (Query.getProvider NewClient AuthenticateV3 Getenv).1 = Some provider →
  ∃ p0, NewClient (Getenv "OS_AUTH_URL") = inl p0
        ∧ ClientContext provider = ClientContext p0.
Proof.
  intros Hauth. unfold Query.getProvider.
  destruct (NewClient _) as [p0|e]; [|done].
  specialize (Hauth p0 (authOptions Getenv)).
  destruct (AuthenticateV3 p0 _) as [p1 [e|]]; [done|].
  simpl in *. intros [= <-]. by exists p0.
Qed.

(** ** Retention against the default timeout *)

Lemma createName_prefix (rand : nat → N) (t : Time) :
  String.prefix resourceTag (createName rand t) = true.
Proof. reflexivity. Qed.

Lemma createName_age (rand : nat → N) (created_at t : Time) :
  0 ≤ created_at → Unix created_at ≤ int64_max →
  resource_age t (createName rand created_at) =
    Some (t - Unix created_at * Second).
Proof.
  intros H0 Hmax. unfold resource_age.
  rewrite (createName_segments rand created_at H0). simpl.
  rewrite ParseInt_FormatInt; [done|].
  split; [by apply Unix_nonneg | done].
Qed.

(** C7.  The retention threshold (15 minutes) is strictly above the
    default request timeout (59 seconds); hence a resource named by
    [createName] during a probe run that is still inside the default
    deadline has an age below the threshold and the sweep does not delete
    it. *)
Theorem retention_exceeds_default_timeout :
  defaultRequestTimeout = 59 * Second
  ∧ garbageCollectorResourceAge = 15 * Minute
  ∧ defaultRequestTimeout < garbageCollectorResourceAge
  ∧ ∀ (rand : nat → N) (started created_at t : Time),
      0 ≤ started → started ≤ created_at → created_at ≤ t →
      t < started + defaultRequestTimeout →
      Unix created_at ≤ int64_max →
      ∃ age, resource_age t (createName rand created_at) = Some age
             ∧ age < garbageCollectorResourceAge
             ∧ gc_deletes t (createName rand created_at) = false.
Proof.
  split_and!; [done|done|done|].
  intros rand started created_at t H0 Hsc Hct Hdl Hmax.
  assert (Hage : resource_age t (createName rand created_at) =
                 Some (t - Unix created_at * Second))
    by (apply createName_age; [lia|done]).
  pose proof (Unix_bounds created_at) as Hb.
  assert (Hlt : t - Unix created_at * Second < garbageCollectorResourceAge).
  { unfold garbageCollectorResourceAge, defaultRequestTimeout, Minute in *.
    unfold Second, Millisecond, Microsecond, Nanosecond in *. lia. }
  eexists. split; [exact Hage|]. split; [exact Hlt|].
  unfold gc_deletes. rewrite Hage, createName_prefix. simpl.
  apply Z.ltb_ge. lia.
Qed.

Lemma retention_exceeds_default_timeout_witness :
  let started := 1540000000123456789 in
  let created_at := started + 20 * Second in
  let t := started + 58 * Second in
  gc_deletes t (createName (λ i, N.of_nat (i * 37 + 45)) created_at) = false.
Proof.
  destruct retention_exceeds_default_timeout as (_ & _ & _ & H).
  destruct (H (λ i, N.of_nat (i * 37 + 45)) 1540000000123456789
              (1540000000123456789 + 20 * Second)
              (1540000000123456789 + 58 * Second)) as (age & _ & _ & Hg).
  - lia.
  - unfold Second, Millisecond, Microsecond, Nanosecond. lia.
  - unfold Second, Millisecond, Microsecond, Nanosecond. lia.
  - unfold defaultRequestTimeout, Second, Millisecond, Microsecond, Nanosecond.
    lia.
  - by vm_compute.
  - exact Hg.
Defined.

(** Past the threshold the same resource is deleted. *)
Example gc_deletes_old_resource :
  gc_deletes (1540000000123456789 + 16 * Minute)
    (createName (λ i, N.of_nat (i * 37 + 45)) 1540000000123456789) = true.
Proof. by vm_compute. Qed.

(** ** Runs of the handler *)

Lemma run_app (prog : list HInstr) (sched1 sched2 : list Event) (s : State) :
  run prog (sched1 ++ sched2) s = run prog sched2 (run prog sched1 s).
Proof. revert s. induction sched1 as [|e sched1 IH]; intros s; simpl; auto. Qed.

(** A property that holds at the start and survives every move holds
    after every schedule. *)
Lemma run_invariant (prog : list HInstr) (P : State → Prop) :
  (∀ e s s', P s → exec prog e s = Some s' → P s') →
  ∀ sched s, P s → P (run prog sched s).
Proof.
  intros Hstep sched. induction sched as [|e sched IH]; intros s Hs; simpl.
  - done.
  - apply IH. destruct (exec prog e s) as [s'|] eqn:He; simpl; eauto.
Qed.

(** What one move of the handler looks like. *)
Lemma hstep_Some (prog : list HInstr) (s s' : State) :
  hstep prog s = Some s' →
  ∃ i rest, drop (hpc s) prog = i :: rest
            ∧ drop (hpc s') prog = rest
            ∧ hpc s' = S (hpc s)
            ∧ prog !! hpc s = Some i.
Proof.
  unfold hstep. destruct (prog !! hpc s) as [i|] eqn:Hi; [|done]. simpl.
  intros Hs'. exists i, (drop (S (hpc s)) prog).
  assert (Hpc : hpc s' = S (hpc s)).
  { destruct i as [| |[|] | | |]; simpl in Hs'; try destruct (hctx s);
      try case_decide; by simplify_eq/=. }
  rewrite Hpc. split_and!; try done.
  by apply drop_S.
Qed.

Lemma gstep_Some (k : nat) (s s' : State) :
  gstep k s = Some s' →
  ∃ g i rest,
    pool s !! k = Some g ∧ g_code g = i :: rest
    ∧ pool s = take k (pool s) ++ g :: drop (S k) (pool s)
    ∧ pool s' = take k (pool s) ++ mkGoroutine (g_probe g) (g_ctx g) rest
                  :: drop (S k) (pool s)
    ∧ world s' = world s ∧ hpc s' = hpc s ∧ hctx s' = hctx s
    ∧ created s' = created s ∧ response s' = response s
    ∧ wg s' = (if decide (i = GWgDone) then wg s - 1 else wg s).
Proof.
  unfold gstep. destruct (pool s !! k) as [g|] eqn:Hg; [|done]. simpl.
  destruct (g_code g) as [|i rest] eqn:Hcode; [done|].
  intros Hs'. exists g, i, rest.
  assert (Hk : (k < length (pool s))%nat) by (by eapply lookup_lt_Some).
  assert (Hins : ∀ g', <[k := g']> (pool s) =
                       take k (pool s) ++ g' :: drop (S k) (pool s))
    by (intros g'; by apply insert_take_drop).
  split_and!; try done.
  - by rewrite take_drop_middle.
  - destruct i; simpl in Hs'; repeat case_decide; simplify_eq/=; apply Hins.
  - destruct i; simpl in Hs'; repeat case_decide; by simplify_eq/=.
  - destruct i; simpl in Hs'; repeat case_decide; by simplify_eq/=.
  - destruct i; simpl in Hs'; repeat case_decide; by simplify_eq/=.
  - destruct i; simpl in Hs'; repeat case_decide; by simplify_eq/=.
  - destruct i; simpl in Hs'; repeat case_decide; by simplify_eq/=.
  - destruct i; simpl in Hs'; repeat case_decide; by simplify_eq/=.
Qed.

(** ** The wait group covers the probes *)

Lemma outstanding_app (gs1 gs2 : list Goroutine) :
  outstanding (gs1 ++ gs2) = outstanding gs1 + outstanding gs2.
Proof. induction gs1 as [|g gs1 IH]; simpl; [done|]. rewrite IH. lia. Qed.

Lemma outstanding_nonneg (gs : list Goroutine) : 0 ≤ outstanding gs.
Proof. induction gs as [|g gs IH]; simpl; lia. Qed.

Lemma running_app (gs1 gs2 : list Goroutine) :
  running (gs1 ++ gs2) = running gs1 ++ running gs2.
Proof. apply filter_app. Qed.

Lemma count_done_cons (i : GInstr) (code : list GInstr) :
  count_done (i :: code) =
    if decide (i = GWgDone) then S (count_done code) else count_done code.
Proof.
  unfold count_done. rewrite filter_cons. by destruct (decide (i = GWgDone)).
Qed.

Lemma count_done_zero (code : list GInstr) :
  count_done code = 0%nat → GWgDone ∉ code.
Proof.
  induction code as [|i code IH]; [intros _; apply not_elem_of_nil|].
  rewrite count_done_cons. destruct (decide (i = GWgDone)); [done|].
  intros H0 [Heq|Hin]%elem_of_cons; [congruence|]. by apply IH.
Qed.

(** A well-ordered body with no [Done] left has no probe call left. *)
Lemma no_done_no_call (code : list GInstr) :
  call_before_done code = true → count_done code = 0%nat → GCall ∉ code.
Proof.
  induction code as [|i code IH]; [intros _ _; apply not_elem_of_nil|].
  simpl. intros [Hi Hrest]%andb_true_iff. rewrite count_done_cons.
  destruct (decide (i = GWgDone)) as [->|Hnd]; [done|]. intros H0.
  intros [Heq|Hin]%elem_of_cons.
  - rewrite decide_True in Hi by done.
    apply bool_decide_eq_true in Hi. by apply count_done_zero in H0.
  - by apply IH.
Qed.

Lemma all_done_none_running (gs : list Goroutine) :
  Forall (λ g, call_before_done (g_code g) = true) gs →
  outstanding gs = 0 → running gs = [].
Proof.
  induction 1 as [|g gs Hg _ IH]; [done|]. simpl.
  pose proof (outstanding_nonneg gs) as Hnn. intros H0.
  unfold running in *. rewrite filter_cons, IH by lia.
  rewrite decide_False; [done|].
  unfold probe_running. rewrite bool_decide_eq_true.
  apply no_done_no_call; [done | lia].
Qed.

Lemma running_cons (g : Goroutine) (gs : list Goroutine) :
  length (running (g :: gs)) =
    ((if probe_running g then 1 else 0) + length (running gs))%nat.
Proof.
  unfold running. rewrite filter_cons.
  destruct (probe_running g); by simplify_eq/=.
Qed.

(** Running code only moves a goroutine towards the end of its probe. *)
Lemma probe_running_tail (g : Goroutine) (i : GInstr) (rest : list GInstr) :
  g_code g = i :: rest →
  probe_running (mkGoroutine (g_probe g) (g_ctx g) rest) = true →
  probe_running g = true.
Proof.
  unfold probe_running. simpl. intros -> Hin%bool_decide_eq_true.
  apply bool_decide_eq_true, elem_of_cons. by right.
Qed.

Lemma covered_init (prog : list HInstr) (t0 : Time) :
  wait_covers 0 0 0 prog = true → covered prog (init t0).
Proof.
  intros Hprog. exists 0, 0, 0%nat. simpl. split_and!; try done. by left.
Qed.

Lemma covered_hstep (prog : list HInstr) (s s' : State) :
  covered prog s → hstep prog s = Some s' → covered prog s'.
Proof.
  intros (a & d & u & Hwg & Hrun & Hcode & Hbodies & Hresp).
  unfold hstep. destruct (prog !! hpc s) as [i|] eqn:Hi; [|done].
  rewrite (drop_S _ _ _ Hi) in Hcode. simpl.
  destruct i as [d0|n|[|d1] p body| | |]; simpl in Hcode |- *.
  - intros [= <-]. by exists a, d, u.
  - intros [= <-]. exists (a + n), d, u. simpl. split_and!; try done. lia.
  - destruct (hctx s) as [ctx|]; [|done]. simpl. intros [= <-].
    apply andb_true_iff in Hcode as [Hbody Hcode].
    exists a, (d + Z.of_nat (count_done body)), (S u). simpl.
    rewrite outstanding_app, running_app, length_app. simpl.
    split_and!; try done.
    + lia.
    + unfold running at 2. rewrite filter_cons, filter_nil.
      case_decide; simpl; lia.
    + apply Forall_app. split; [done|]. by apply Forall_singleton.
  - intros [= <-].
    apply andb_true_iff in Hcode as [Hbody Hcode].
    exists a, (d + Z.of_nat (count_done body)), (S u). simpl.
    rewrite outstanding_app, running_app, length_app. simpl.
    split_and!; try done.
    + lia.
    + unfold running at 2. rewrite filter_cons, filter_nil.
      case_decide; simpl; lia.
    + apply Forall_app. split; [done|]. by apply Forall_singleton.
  - case_decide as Hzero; [|done]. intros [= <-].
    apply andb_true_iff in Hcode as [Heq Hcode]. apply Z.eqb_eq in Heq.
    exists a, d, 0%nat. simpl. split_and!; try done.
    rewrite all_done_none_running; [done|done|lia].
  - intros [= <-]. apply andb_true_iff in Hcode as [Hu Hcode].
    apply Nat.eqb_eq in Hu. subst u.
    exists a, d, 0%nat. simpl. split_and!; try done.
    right. destruct (running (pool s)); [done | simpl in Hrun; lia].
  - destruct (hctx s) as [ctx|]; [|done]. simpl. intros [= <-].
    by exists a, d, u.
Qed.

Lemma covered_gstep (prog : list HInstr) (k : nat) (s s' : State) :
  covered prog s → gstep k s = Some s' → covered prog s'.
Proof.
  intros (a & d & u & Hwg & Hrun & Hcode & Hbodies & Hresp) Hstep.
  destruct (gstep_Some _ _ _ Hstep)
    as (g & i & rest & Hg & Hgc & Hpool & Hpool' & _ & Hpc & _ & _ & Hr & Hwg').
  exists a, d, u. rewrite Hpool', Hpc, Hr, Hwg'.
  rewrite Hpool in Hwg, Hrun, Hbodies.
  rewrite outstanding_app in Hwg |- *. rewrite running_app, length_app in Hrun |- *.
  apply Forall_app in Hbodies as [Hb1 Hb2].
  apply Forall_cons in Hb2 as [Hbg Hb2].
  rewrite Hgc in Hbg. simpl in Hbg. apply andb_true_iff in Hbg as [_ Hbrest].
  simpl in Hwg |- *. rewrite Hgc, count_done_cons in Hwg.
  split_and!; try done.
  - destruct (decide (i = GWgDone)); lia.
  - rewrite !running_cons in Hrun |- *.
    pose proof (probe_running_tail g i rest Hgc) as Htail.
    simpl in Htail.
    destruct (probe_running (mkGoroutine _ _ rest)), (probe_running g);
      simpl in *; try lia; by specialize (Htail eq_refl).
  - apply Forall_app. split; [done|]. by apply Forall_cons.
Qed.

Lemma covered_tick (prog : list HInstr) (d : N) (s : State) :
  covered prog s → covered prog (tick d s).
Proof. done. Qed.

(** Code that keeps its [Wait]s and [Serve]s covered never writes the
    response while a probe is running, whatever the schedule. *)
Lemma covered_serves_after_probes (prog : list HInstr) :
  wait_covers 0 0 0 prog = true →
  ∀ (sched : list Event) (t0 : Time),
    response (run prog sched (init t0)) = None
    ∨ response (run prog sched (init t0)) = Some [].
Proof.
  intros Hprog sched t0.
  assert (Hinv : covered prog (run prog sched (init t0))).
  { apply run_invariant; [|by apply covered_init].
    intros [|k|d] s s' Hs; simpl.
    - by apply covered_hstep.
    - by apply covered_gstep.
    - intros [= <-]. by apply covered_tick. }
  by destruct Hinv as (_ & _ & _ & _ & _ & _ & _ & H).
Qed.

(** X20.  main.go: the response waits for both probes. *)
Lemma Query_serves_after_probes
    (ParseDuration : string → option Duration) (query : Query.Values)
    (sched : list Event) (t0 : Time) :
  let s := run (Query.metricsHandler ParseDuration query) sched (init t0) in
  response s = None ∨ response s = Some [].
Proof. by apply covered_serves_after_probes. Qed.

(** X21.  part_000: the same, unless the instance probe is on and the
    object-store probe is off. *)
Lemma Flags_serves_after_probes
    (cfg : Flags.Config) (sched : list Event) (t0 : Time) :
  ¬ (Flags.disableInstance cfg = false ∧ Flags.disableObjectStore cfg = true) →
  let s := run (Flags.metricsHandler cfg) sched (init t0) in
  response s = None ∨ response s = Some [].
Proof.
  intros Hcfg. apply covered_serves_after_probes.
  destruct cfg as [d ? ? ? ? ? dos di]. simpl in *.
  destruct di, dos; try done. by destruct Hcfg.
Qed.

(** C1, at the input where it fails: with the instance probe on and the
    object-store probe off the handler of part_000 never calls
    [wg.Wait()]; four moves of the handler write the response while
    [spawnMain] has not even begun. *)
Theorem Flags_instance_only_serves_early :
  let cfg := Flags.mkConfig (59 * Second) "t2.small" "ubuntu-16.04-x86_64"
               "private" "internet" "ubuntu" true false in
  let s := run (Flags.metricsHandler cfg) (repeat EvHandler 4) (init 0) in
  Flags.metricsHandler cfg =
    [ HWithTimeout (59 * Second); HWgAdd 1;
      HGo spawnMain [GNow; GCall; GWgDone; GLog]; HServe; HCancel ]
  ∧ response s = Some [spawnMain]
  ∧ g_code <$> pool s = [[GNow; GCall; GWgDone; GLog]]
  ∧ wg s = 1.
Proof. by vm_compute. Qed.

(** ** One context per request *)

Lemma cancel_now (ctx : Context) (w : World) : now (cancel ctx w) = now w.
Proof. unfold cancel. by destruct (ctx_done ctx w). Qed.

Lemma one_context_step (d : Duration) (t0 : Time) (rest : list HInstr)
    (e : Event) (s s' : State) :
  no_WithTimeout rest = true →
  one_context d t0 (HWithTimeout d :: rest) s →
  exec (HWithTimeout d :: rest) e s = Some s' →
  one_context d t0 (HWithTimeout d :: rest) s'.
Proof.
  intros Hrest [Hnow Hs]. destruct e as [|k|dt]; simpl.
  - unfold hstep.
    destruct Hs as [(Hpc & Hcr & Hpool & Hctx & Hresp)
                   |(t & Ht & Hcr & Hctx & Hpool & Hcode)].
    + rewrite Hpc. simpl. intros [= <-]. split; [done|]. right.
      exists (now (world s)). simpl. rewrite Hcr, Hpool. simpl.
      unfold WithTimeout. split_and!; try done; lia.
    + destruct (_ !! hpc s) as [i|] eqn:Hi; [|done].
      rewrite (drop_S _ _ _ Hi) in Hcode. simpl.
      destruct i as [d0|n|[|d1] p body| | |]; simpl in Hcode |- *; try done.
      * intros [= <-]. split; [done|]. right. by exists t.
      * rewrite Hctx. simpl. intros [= <-]. split; [done|]. right.
        exists t. simpl. split; [exact Ht|]. split_and!; try done.
        apply Forall_app. split; [done|]. by apply Forall_singleton.
      * case_decide; [|done]. intros [= <-]. split; [done|]. right.
        by exists t.
      * intros [= <-]. split; [done|]. right. by exists t.
      * rewrite Hctx. simpl. intros [= <-]. unfold one_context. simpl.
        rewrite cancel_now. split; [done|]. right. by exists t.
  - intros Hstep.
    destruct (gstep_Some _ _ _ Hstep)
      as (g & i & code & Hg & Hgc & Hpool & Hpool' & Hw & Hpc & Hc & Hcr & Hr & _).
    unfold one_context. rewrite Hw. split; [done|].
    destruct Hs as [(_ & _ & Hnil & _)|(t & Ht & Hcr0 & Hctx & Hall & Hcode)].
    { by rewrite Hnil in Hg. }
    right. exists t. rewrite Hpc, Hc, Hcr, Hpool'.
    split; [exact Ht|]. split_and!; try done.
    rewrite Hpool in Hall. apply Forall_app in Hall as [H1 H2].
    apply Forall_cons in H2 as [Hgctx H2].
    apply Forall_app. split; [done|]. by apply Forall_cons.
  - intros [= <-]. unfold one_context. simpl. split; [lia|].
    destruct Hs as [?|(t & Ht & ?)]; [by left|].
    right. exists t. split; [lia | done].
Qed.

Lemma one_context_run (d : Duration) (rest : list HInstr) :
  no_WithTimeout rest = true →
  ∀ (sched : list Event) (t0 : Time),
    one_context d t0 (HWithTimeout d :: rest)
      (run (HWithTimeout d :: rest) sched (init t0)).
Proof.
  intros Hrest sched t0. apply run_invariant.
  - intros e s s'. by apply one_context_step.
  - split; [simpl; lia|]. by left.
Qed.

Lemma one_context_shares (d : Duration) (t0 : Time) (prog : list HInstr)
    (s : State) :
  one_context d t0 prog s → shares_one_deadline d t0 s.
Proof.
  intros [Hnow [(Hpc & Hcr & Hpool & Hctx & Hresp)
               |(t & Ht & Hcr & Hctx & Hpool & _)]].
  - unfold shares_one_deadline. rewrite Hcr, Hpool, Hresp. simpl.
    split_and!; [lia| | |].
    + by intros c ?%elem_of_nil.
    + by intros g ?%elem_of_nil.
    + by intros [? ?].
  - unfold shares_one_deadline. rewrite Hcr, Hctx. simpl. split_and!; [lia| | |done].
    + intros c ->%list_elem_of_singleton. by exists t.
    + intros g Hg. rewrite Forall_forall in Hpool. by rewrite (Hpool g Hg).
Qed.

(** ** Which probes are started *)

Lemma starts_step (prog : list HInstr) (e : Event) (s s' : State) :
  starts prog s → exec prog e s = Some s' → starts prog s'.
Proof.
  intros (Hsp & Hq & Hresp). destruct e as [|k|dt]; simpl.
  - unfold hstep. destruct (prog !! hpc s) as [i|] eqn:Hi; [|done].
    rewrite (drop_S _ _ _ Hi) in Hsp, Hq, Hresp. simpl.
    destruct i as [d0|n|[|d1] p body| | |]; simpl in Hsp, Hq, Hresp |- *.
    + intros [= <-]. by split_and!.
    + intros [= <-]. by split_and!.
    + destruct (hctx s) as [ctx|]; [|done]. simpl. intros [= <-].
      unfold starts. simpl.
      rewrite fmap_app, <- app_assoc. simpl. split_and!; try done.
      intros Hr. by specialize (Hresp Hr).
    + intros [= <-]. unfold starts. simpl.
      rewrite fmap_app, <- app_assoc. simpl. split_and!; try done.
      intros Hr. by specialize (Hresp Hr).
    + case_decide; [|done]. intros [= <-]. by split_and!.
    + intros [= <-]. simpl. apply andb_true_iff in Hq as [Hnil Hq].
      apply bool_decide_eq_true in Hnil. by split_and!.
    + destruct (hctx s) as [ctx|]; [|done]. simpl. intros [= <-].
      by split_and!.
  - intros Hstep.
    destruct (gstep_Some _ _ _ Hstep)
      as (g & i & code & Hg & Hgc & Hpool & Hpool' & _ & Hpc & _ & _ & Hr & _).
    unfold starts. rewrite Hpc, Hr, Hpool'. split_and!; try done.
    rewrite <- Hsp. f_equal. rewrite Hpool at 3.
    by rewrite !fmap_app.
  - by intros [= <-].
Qed.

Lemma starts_run (prog : list HInstr) :
  quiet_after_serve prog = true →
  ∀ (sched : list Event) (t0 : Time),
    starts prog (run prog sched (init t0)).
Proof.
  intros Hq sched t0. apply run_invariant.
  - intros e s s'. apply starts_step.
  - split_and!; try done. by intros [? ?].
Qed.

(** With the flags at their defaults both probes run. *)
Example enabled_defaults : enabled Flags.defaults = [spawnMain; objectStoreMain].
Proof. reflexivity. Qed.

(** Every configuration has a run in which the response is written. *)
Lemma Flags_runs_to_completion (cfg : Flags.Config) (t0 : Time) :
  is_Some (response (run (Flags.metricsHandler cfg) to_completion (init t0))).
Proof.
  destruct cfg as [d ? ? ? ? ? dos di].
  destruct di, dos; vm_compute; eauto.
Qed.

(** ** The timeout of a request (main.go) *)

Lemma Get_absent (query : Query.Values) (key : string) :
  query !! key = None → Query.Get query key = EmptyString.
Proof. unfold Query.Get. by intros ->. Qed.

Lemma requestTimeout_cases
    (ParseDuration : string → option Duration) (query : Query.Values) :
  ParseDuration EmptyString = None →
  Query.requestTimeout ParseDuration query =
    match ParseDuration (Query.Get query "timeout") with
    | Some value => value
    | None => defaultRequestTimeout
    end.
Proof.
  intros Hempty. unfold Query.requestTimeout.
  case_decide as Hparam; [done|].
  by rewrite Hparam, Hempty.
Qed.

Lemma Query_contexts
    (ParseDuration : string → option Duration) (query : Query.Values)
    (sched : list Event) (t0 : Time) :
  shares_one_deadline (Query.requestTimeout ParseDuration query) t0
    (run (Query.metricsHandler ParseDuration query) sched (init t0)).
Proof. eapply one_context_shares. by apply one_context_run. Qed.

Lemma Query_runs_to_completion
    (ParseDuration : string → option Duration) (query : Query.Values)
    (t0 : Time) :
  response (run (Query.metricsHandler ParseDuration query) to_completion
              (init t0)) = Some [].
Proof.
  unfold Query.metricsHandler.
  generalize (Query.requestTimeout ParseDuration query). intros d.
  by vm_compute.
Qed.

(** main.go, for a parser that rejects the empty string (Go's does): when
    the [timeout] parameter is absent, or does not parse, the handler
    takes [defaultRequestTimeout]; when it parses, the handler
    takes the parsed value.  Whichever it is, that is the timeout of the
    context the handler makes, and the handler goes on to run the probes
    and write the response: no value of the parameter makes it fail the
    request. *)
Lemma Query_timeout_override_or_default
    (ParseDuration : string → option Duration) (query : Query.Values)
    (t0 : Time) :
  ParseDuration EmptyString = None →
  let param := Query.Get query "timeout" in
  let d := Query.requestTimeout ParseDuration query in
  let prog := Query.metricsHandler ParseDuration query in
  (query !! "timeout" = None → d = defaultRequestTimeout)
  ∧ (ParseDuration param = None → d = defaultRequestTimeout)
  ∧ (∀ value, ParseDuration param = Some value → d = value)
  ∧ prog !! 0%nat = Some (HWithTimeout d)
  ∧ (∀ sched c, c ∈ created (run prog sched (init t0)) →
       ∃ t, t0 ≤ t ∧ ctx_deadline c = t + d)
  ∧ response (run prog to_completion (init t0)) = Some [].
Proof.
  intros Hempty param d prog.
  assert (Hd := requestTimeout_cases ParseDuration query Hempty).
  fold d param in Hd. split_and!.
  - intros Habs. unfold param in Hd.
    by rewrite (Get_absent _ _ Habs), Hempty in Hd.
  - intros Hnone. by rewrite Hnone in Hd.
  - intros value Hsome. by rewrite Hsome in Hd.
  - done.
  - intros sched c Hc.
    destruct (Query_contexts ParseDuration query sched t0) as (_ & Hdl & _).
    destruct (Hdl c Hc) as (t & Ht & Heq). exists t. split; [lia | done].
  - apply Query_runs_to_completion.
Qed.

(** A context made with a timeout that is not positive is done in the
    world it was made in. *)
Lemma WithTimeout_nonpositive (id : nat) (d : Duration) (w : World) :
  d ≤ 0 → ctx_done (WithTimeout id d w) w = true.
Proof.
  intros Hd. unfold ctx_done, WithTimeout. simpl.
  apply orb_true_iff. right. apply Z.leb_le. lia.
Qed.

(** C10.  A [timeout] parameter that parses is taken as it is, also when
    the value is zero or negative: the handler of main.go does not fall
    back to the default, the context its first instruction makes is done
    in the very world it is made in, and in every state of every run the
    context the handler has made is done. *)
Theorem nonpositive_timeout_accepted
    (ParseDuration : string → option Duration) (query : Query.Values)
    (value : Duration) (t0 : Time) :
  ParseDuration EmptyString = None →
  ParseDuration (Query.Get query "timeout") = Some value →
  value ≤ 0 →
  let prog := Query.metricsHandler ParseDuration query in
  Query.requestTimeout ParseDuration query = value
  ∧ Query.requestTimeout ParseDuration query ≠ defaultRequestTimeout
  ∧ (∀ s, hpc s = 0%nat →
       ∃ s' c, hstep prog s = Some s'
               ∧ hctx s' = Some c
               ∧ c = WithTimeout (length (created s)) value (world s)
               ∧ ctx_done c (world s) = true
               ∧ ctx_done c (world s') = true)
  ∧ (∀ sched c,
       c ∈ created (run prog sched (init t0)) →
       ctx_done c (world (run prog sched (init t0))) = true).
Proof.
  intros Hempty Hparse Hneg prog.
  assert (Hd : Query.requestTimeout ParseDuration query = value)
    by (by rewrite requestTimeout_cases, Hparse).
  split_and!.
  - done.
  - rewrite Hd. unfold defaultRequestTimeout, Second, Millisecond,
      Microsecond, Nanosecond. lia.
  - intros s Hpc. unfold prog, Query.metricsHandler, hstep.
    rewrite Hpc, Hd. simpl. eexists _, _. split_and!; try done; simpl.
    + by apply WithTimeout_nonpositive.
    + by apply WithTimeout_nonpositive.
  - intros sched c Hc.
    destruct (Query_contexts ParseDuration query sched t0) as (_ & Hdl & _).
    destruct (Hdl c Hc) as (t & Ht & Heq). rewrite Hd in Heq.
    unfold ctx_done. apply orb_true_iff. right. apply Z.leb_le.
    subst prog. lia.
Qed.

Lemma nonpositive_timeout_accepted_witness :
  Query.requestTimeout ParseDuration_integral {[ "timeout" := ["-5s"] ]}
    = - (5 * Second)
  ∧ ctx_done (WithTimeout 0 (- (5 * Second)) (world (init 1000))) (world (init 1000))
    = true.
Proof.
  pose proof (nonpositive_timeout_accepted ParseDuration_integral
                {[ "timeout" := ["-5s"] ]} (- (5 * Second)) 1000) as H.
  destruct H as (Hd & _ & Hstep & _).
  - by vm_compute.
  - by vm_compute.
  - by vm_compute.
  - split; [exact Hd|].
    destruct (Hstep (init 1000) eq_refl) as (s' & c & _ & _ & -> & Hdone & _).
    exact Hdone.
Defined.

(** The same with a timeout of zero. *)
Example zero_timeout :
  Query.requestTimeout ParseDuration_integral {[ "timeout" := ["0s"] ]} = 0
  ∧ ctx_done (WithTimeout 0 0 (world (init 1000))) (world (init 1000)) = true.
Proof. by vm_compute. Qed.

(** ** The parser's loop has rounds enough *)

Lemma leadingInt_length (x v : Z) (s s1 : string) :
  leadingInt x s = Some (v, s1) → (String.length s1 ≤ String.length s)%nat.
Proof.
  revert x. induction s as [|c s IH]; intros x; simpl.
  - by intros [= _ <-].
  - destruct (is_digit c); [|intros [= _ <-]; simpl; lia].
    repeat case_match; try done. intros Hrec%IH. lia.
Qed.

Lemma leadingUnit_length (s u s2 : string) :
  leadingUnit s = (u, s2) →
  String.length s = (String.length u + String.length s2)%nat.
Proof.
  revert u s2. induction s as [|c s IH]; intros u s2; simpl.
  - by intros [= <- <-].
  - destruct (_ || _); [by intros [= <- <-]|].
    destruct (leadingUnit s) as [u' s'] eqn:Hu. intros [= <- <-]. simpl.
    by rewrite (IH u' s').
Qed.

(** More rounds than the length of the string change nothing: the loop
    of [ParseDuration_integral] never stops for want of rounds. *)
Lemma parseGroups_fuel (n m : nat) (d : Z) (s : string) :
  (String.length s ≤ n)%nat → (String.length s ≤ m)%nat →
  parseGroups n d s = parseGroups m d s.
Proof.
  revert m d s. induction n as [|n IH]; intros m d s Hn Hm.
  - destruct s; [by destruct m | simpl in Hn; lia].
  - destruct s as [|c s]; [by destruct m|].
    destruct m as [|m]; [simpl in Hm; lia|].
    cbn [parseGroups]. destruct (negb (is_digit c)); [done|].
    destruct (leadingInt 0 (String c s)) as [[v s1]|] eqn:Hint; [|done].
    cbn [mbind option_bind].
    destruct (leadingUnit s1) as [u s2] eqn:Hunit.
    case_decide as Hu; [done|].
    destruct (unitMap u) as [unit|]; [|done]. cbn [mbind option_bind].
    repeat case_match; try done.
    apply leadingInt_length in Hint. apply leadingUnit_length in Hunit.
    assert (0 < String.length u)%nat by (destruct u; [done | simpl; lia]).
    simpl in *. apply IH; lia.
Qed.

(** * Further properties of the code *)

(** ** Names *)

Lemma createName_suffix_and_second (rand1 rand2 : nat → N) (t1 t2 : Time) :
  0 ≤ t1 → 0 ≤ t2 → Unix t1 ≤ int64_max → Unix t2 ≤ int64_max →
  createName rand1 t1 = createName rand2 t2 →
  RandomString "" 8 rand1 = RandomString "" 8 rand2 ∧ Unix t1 = Unix t2.
Proof.
  intros H1 H2 M1 M2 Heq.
  assert (Hseg : Split "-" (createName rand1 t1) = Split "-" (createName rand2 t2))
    by (by rewrite Heq).
  rewrite !createName_segments in Hseg by done.
  apply app_inv_head in Hseg.
  split; [congruence|].
  assert (Hp : ParseInt (FormatInt (Unix t1)) = ParseInt (FormatInt (Unix t2)))
    by congruence.
  rewrite !ParseInt_FormatInt in Hp
    by (split; [by apply Unix_nonneg | done]).
  by injection Hp.
Qed.

(** X1.  Two names are equal exactly when they were made in the same second
    with the same random suffix. *)
Theorem createName_equal_iff (rand1 rand2 : nat → N) (t1 t2 : Time) :
  0 ≤ t1 → 0 ≤ t2 → Unix t1 ≤ int64_max → Unix t2 ≤ int64_max →
  createName rand1 t1 = createName rand2 t2
  ↔ RandomString "" 8 rand1 = RandomString "" 8 rand2 ∧ Unix t1 = Unix t2.
Proof.
  intros H1 H2 M1 M2. split.
  - by apply createName_suffix_and_second.
  - intros [Hsuf Hts]. unfold createName. by rewrite Hsuf, Hts.
Qed.

Lemma createName_equal_iff_witness :
  createName (λ _, 0%N) 1540000000123456789
    = createName (λ _, 62%N) 1540000000999999999
  ∧ createName (λ _, 0%N) 1540000000123456789
    ≠ createName (λ _, 0%N) 1540000001000000000.
Proof.
  split.
  - apply (createName_equal_iff (λ _, 0%N) (λ _, 62%N)
             1540000000123456789 1540000000999999999);
      [lia | lia | by vm_compute | by vm_compute | by vm_compute].
  - intros Heq.
    apply (createName_equal_iff (λ _, 0%N) (λ _, 0%N)
             1540000000123456789 1540000001000000000) in Heq;
      [| lia | lia | by vm_compute | by vm_compute].
    destruct Heq as [_ Hts]. by vm_compute in Hts.
Defined.

Lemma Unix_monotone (t1 t2 : Time) : t1 ≤ t2 → Unix t1 ≤ Unix t2.
Proof.
  intros Hle. unfold Unix, Second, Millisecond, Microsecond, Nanosecond.
  apply Z.div_le_mono; lia.
Qed.

(** X2.  The timestamps read back from names are ordered as the instants the
    names were made at: a name made later never carries a smaller
    timestamp. *)
Theorem createName_timestamps_ordered (rand1 rand2 : nat → N) (t1 t2 : Time) :
  0 ≤ t1 → t1 ≤ t2 → Unix t2 ≤ int64_max →
  ∃ ts1 ts2,
    (last (Split "-" (createName rand1 t1)) ≫= ParseInt) = Some ts1
    ∧ (last (Split "-" (createName rand2 t2)) ≫= ParseInt) = Some ts2
    ∧ ts1 ≤ ts2.
Proof.
  intros H1 Hle Hmax.
  pose proof (Unix_monotone t1 t2 Hle) as Hmono.
  exists (Unix t1), (Unix t2).
  rewrite !createName_segments by lia. simpl.
  rewrite !ParseInt_FormatInt; [done| |].
  - split; [apply Unix_nonneg; lia | done].
  - split; [by apply Unix_nonneg | lia].
Qed.

Lemma createName_timestamps_ordered_witness :
  ∃ ts1 ts2,
    (last (Split "-" (createName (λ _, 7%N) 1540000000123456789)) ≫= ParseInt)
      = Some ts1
    ∧ (last (Split "-" (createName (λ _, 9%N) 1540000075000000000)) ≫= ParseInt)
      = Some ts2
    ∧ ts1 ≤ ts2.
Proof.
  apply (createName_timestamps_ordered (λ _, 7%N) (λ _, 9%N)
           1540000000123456789 1540000075000000000);
    [lia | lia | by vm_compute].
Defined.

Lemma all_chars_app (P : ascii → bool) (a b : string) :
  all_chars P (a +:+ b) = all_chars P a && all_chars P b.
Proof.
  induction a as [|c a IH]; [done|].
  rewrite append_String. simpl. by rewrite IH, andb_assoc.
Qed.

Lemma alphanum_at_alnum (b : N) : alnum_or_dash (alphanum_at b) = true.
Proof.
  unfold alphanum_at.
  assert (Hlt : (N.to_nat (b mod N.of_nat (String.length alphanum)) < 62)%nat).
  { pose proof (N.mod_upper_bound b (N.of_nat (String.length alphanum))) as Hb.
    change (N.of_nat (String.length alphanum)) with 62%N in *. lia. }
  revert Hlt. generalize (N.to_nat (b mod N.of_nat (String.length alphanum))).
  intros k Hk.
  do 62 (destruct k as [|k]; [by vm_compute|]). lia.
Qed.

Lemma digit_alnum (c : ascii) : is_digit c = true → alnum_or_dash c = true.
Proof.
  destruct c as [[] [] [] [] [] [] [] []]; try discriminate; by vm_compute.
Qed.

Lemma digits_alnum (s : string) :
  all_digits s = true → all_chars alnum_or_dash s = true.
Proof.
  induction s as [|c s IH]; [done|]. simpl.
  intros [Hc Hs]%andb_true_iff. by rewrite digit_alnum, IH.
Qed.

(** X3.  A name made at or after the epoch consists of letters, digits and
    ['-'] only. *)
Theorem createName_charset (rand : nat → N) (t : Time) :
  0 ≤ t → all_chars alnum_or_dash (createName rand t) = true.
Proof.
  intros Ht. unfold createName. rewrite !all_chars_app.
  assert (Hsuf : all_chars alnum_or_dash (RandomString "" 8 rand) = true).
  { unfold RandomString. change (EmptyString +:+ ?s) with s. simpl.
    by rewrite !alphanum_at_alnum. }
  rewrite Hsuf, (digits_alnum (FormatInt (Unix t))); [done|].
  by apply FormatInt_digits, Unix_nonneg.
Qed.

Lemma createName_charset_witness :
  all_chars alnum_or_dash
    (createName (λ i, N.of_nat (i * 37 + 45)) 1540000000123456789) = true.
Proof. apply createName_charset. lia. Defined.

(** ** The step timer, used more than once *)

Lemma ctx_done_later (ctx : Context) (w1 w2 : World) :
  now w1 ≤ now w2 → cancelled w1 ⊆ cancelled w2 →
  ctx_done ctx w1 = true → ctx_done ctx w2 = true.
Proof.
  intros Hnow Hcan. unfold ctx_done.
  intros [Hc|Hd]%orb_true_iff; apply orb_true_iff.
  - left. apply bool_decide_eq_true. apply bool_decide_eq_true in Hc.
    set_solver.
  - right. apply Z.leb_le. apply Z.leb_le in Hd. lia.
Qed.

(** X4.  Once [step] has reported a timeout, every [step] on the same context
    at a later moment reports one too, whatever its gauge and name: a
    probe cannot pass a checkpoint after having failed one. *)
Theorem step_timeout_is_sticky
    (ctx : Context) (timing1 timing2 : GaugeVec) (name1 name2 : string)
    (w1 w1' w2 : World) (e : string) :
  step ctx timing1 name1 w1 = Returned (Some e) w1' →
  now w1 ≤ now w2 → cancelled w1 ⊆ cancelled w2 →
  ∃ w2', step ctx timing2 name2 w2
         = Returned (Some ("timeout after " +:+ name2)) w2'.
Proof.
  rewrite !step_unfold. intros Hfirst Hnow Hcan.
  assert (Hdone : ctx_done ctx w1 = true).
  { destruct (ctx_done ctx w1); [done|]. by inversion Hfirst. }
  rewrite (ctx_done_later ctx w1 w2 Hnow Hcan Hdone). by eexists.
Qed.

Lemma step_timeout_is_sticky_witness :
  ∃ w2', step (mkContext 0 100) 4%nat "ssh" (mkWorld 200 ∅ ∅ [])
         = Returned (Some "timeout after ssh") w2'.
Proof.
  eapply (step_timeout_is_sticky (mkContext 0 100) 3%nat 4%nat "boot" "ssh"
            (mkWorld 150 ∅ ∅ [])).
  - by rewrite step_unfold.
  - simpl. lia.
  - done.
Defined.

(** X5.  Two calls in a row on the same gauge vector: the second timestamp is
    that of the second call; the timestamp of the first call is kept if
    the names differ and replaced if they are the same; and gauges of
    other names are as they were before the first call. *)
Theorem step_twice
    (ctx : Context) (timing : GaugeVec) (name1 name2 : string)
    (w1 w1' w2 w2' : World) (e1 e2 : error) :
  step ctx timing name1 w1 = Returned e1 w1' →
  metrics w2 = metrics w1' →
  step ctx timing name2 w2 = Returned e2 w2' →
  metrics w2' !! (timing, name2) = Some (now w2)
  ∧ (name1 ≠ name2 → metrics w2' !! (timing, name1) = Some (now w1))
  ∧ (∀ k, k ≠ (timing, name1) → k ≠ (timing, name2) →
       metrics w2' !! k = metrics w1 !! k).
Proof.
  rewrite !step_unfold. intros [= _ <-] Hm [= _ <-]. simpl in *.
  rewrite Hm. split_and!.
  - apply lookup_insert_eq.
  - intros Hne. rewrite lookup_insert_ne by congruence.
    apply lookup_insert_eq.
  - intros k H1 H2. by rewrite !lookup_insert_ne.
Qed.

Lemma step_twice_witness :
  ∃ w1' w2',
    step (mkContext 0 100) 3%nat "boot" (mkWorld 10 ∅ ∅ []) = Returned None w1'
    ∧ step (mkContext 0 100) 3%nat "ssh" (mkWorld 20 ∅ (metrics w1') [])
      = Returned None w2'
    ∧ metrics w2' !! (3%nat, "ssh") = Some 20
    ∧ metrics w2' !! (3%nat, "boot") = Some 10.
Proof.
  eexists _, _. split; [by rewrite step_unfold|].
  split; [by rewrite step_unfold|].
  pose proof (step_twice (mkContext 0 100) 3%nat "boot" "ssh"
                (mkWorld 10 ∅ ∅ []) _
                (mkWorld 20 ∅ (<[(3%nat, "boot") := 10]> ∅) []) _ None None
                (step_unfold _ _ _ _) eq_refl (step_unfold _ _ _ _))
    as (H2 & H1 & _).
  split; [exact H2 | by apply H1].
Defined.

(** ** [getProvider] *)

(** X7.  In both revisions [getProvider] returns either a client and no error
    or no client and an error, never both and never neither; the error
    says which stage failed and carries that stage's message, and
    authentication is not consulted when the client cannot be made. *)
Theorem getProvider_client_or_error
    (NewClient : string → ProviderClient + string)
    (AuthenticateV3 : ProviderClient → AuthOptions → ProviderClient * error)
    (ctx : Context) (Getenv : Environ) :
  let outcome (made : ProviderClient + string)
      (r : option ProviderClient * error) : Prop :=
    match made with
    | inr e => r = (None, Some ("cannot create OpenStack client: " +:+ e))
    | inl p =>
        match AuthenticateV3 p (authOptions Getenv) with
        | (_, Some e) => r = (None, Some ("authentication failure: " +:+ e))
        | (p', None) => r = (Some p', None)
        end
    end in
  outcome (NewClient (Getenv "OS_AUTH_URL"))
    (Query.getProvider NewClient AuthenticateV3 Getenv)
  ∧ outcome (sum_map (with_context ctx) id (NewClient (Getenv "OS_AUTH_URL")))
      (Flags.getProvider NewClient AuthenticateV3 ctx Getenv)
  ∧ (∀ r, r = Query.getProvider NewClient AuthenticateV3 Getenv
          ∨ r = Flags.getProvider NewClient AuthenticateV3 ctx Getenv →
          is_Some r.1 ↔ r.2 = None).
Proof.
  unfold Query.getProvider, Flags.getProvider, with_context. simpl.
  split_and!.
  - destruct (NewClient _) as [p|e]; [|done].
    by destruct (AuthenticateV3 _ _) as [p' [e|]].
  - destruct (NewClient _) as [p|e]; [|done]. simpl.
    by destruct (AuthenticateV3 _ _) as [p' [e|]].
  - intros r [->| ->]; destruct (NewClient _) as [p|e]; simpl;
      try (destruct (AuthenticateV3 _ _) as [p' [e'|]]; simpl);
      split; intros H; try done; by destruct H.
Qed.

(** X8.  [getProvider] of part_000 is [getProvider] of main.go run with a
    [NewClient] that attaches the context to the client it makes: the
    context is in place before authentication. *)
Theorem Flags_getProvider_is_Query_with_context
    (NewClient : string → ProviderClient + string)
    (AuthenticateV3 : ProviderClient → AuthOptions → ProviderClient * error)
    (ctx : Context) (Getenv : Environ) :
  Flags.getProvider NewClient AuthenticateV3 ctx Getenv =
    Query.getProvider (λ url, sum_map (with_context ctx) id (NewClient url))
      AuthenticateV3 Getenv.
Proof.
  unfold Flags.getProvider, Query.getProvider, with_context.
  by destruct (NewClient _).
Qed.

(** X9.  Authentication in part_000 only ever sees a client that already
    carries the context: two authentication functions that agree on such
    clients give the same [getProvider]. *)
Theorem Flags_getProvider_authenticates_under_context
    (NewClient : string → ProviderClient + string)
    (Auth1 Auth2 : ProviderClient → AuthOptions → ProviderClient * error)
    (ctx : Context) (Getenv : Environ) :
  (∀ p o, ClientContext p = Some ctx → Auth1 p o = Auth2 p o) →
  Flags.getProvider NewClient Auth1 ctx Getenv =
    Flags.getProvider NewClient Auth2 ctx Getenv.
Proof.
  intros Hagree. unfold Flags.getProvider.
  destruct (NewClient _) as [p|e]; [|done]. by rewrite Hagree.
Qed.

Lemma Flags_getProvider_authenticates_under_context_witness :
  let NewClient := λ url : string,
    inl (mkProviderClient url "" None) : ProviderClient + string in
  let ctx := mkContext 0 59000000000 in
  let Auth1 := λ (p : ProviderClient) (o : AuthOptions),
    (p, match ClientContext p with
        | Some _ => None
        | None => Some "no context"
        end : error) in
  let Auth2 := λ (p : ProviderClient) (o : AuthOptions), (p, None : error) in
  Flags.getProvider NewClient Auth1 ctx (λ _, "") =
    Flags.getProvider NewClient Auth2 ctx (λ _, "").
Proof.
  apply (Flags_getProvider_authenticates_under_context
           (λ url, inl (mkProviderClient url "" None))
           (λ p o, (p, match ClientContext p with
                       | Some _ => None
                       | None => Some "no context"
                       end))
           (λ p o, (p, None)) (mkContext 0 59000000000) (λ _, "")).
  intros p o Hp. by rewrite Hp.
Defined.

Lemma Query_getProvider_context_witness :
  let NewClient := λ url : string,
    inl (mkProviderClient url "" None) : ProviderClient + string in
  let AuthenticateV3 := λ (p : ProviderClient) (o : AuthOptions),
    (mkProviderClient (IdentityEndpoint p) (Password o) (ClientContext p),
     None : error) in
  ∃ p0, NewClient "" = inl p0
        ∧ ClientContext (mkProviderClient "" "" None) = ClientContext p0.
Proof.
  apply (Query_getProvider_context
           (λ url, inl (mkProviderClient url "" None))
           (λ p o, (mkProviderClient (IdentityEndpoint p) (Password o)
                      (ClientContext p), None))
           (λ _, "") (mkProviderClient "" "" None)).
  - intros p o. reflexivity.
  - reflexivity.
Defined.

(** ** The environment listing *)

Lemma cut_Some (sep : ascii) (s before after : string) :
  cut sep s = Some (before, after) →
  s = before +:+ String sep after ∧ contains_char sep before = false.
Proof.
  revert before after. induction s as [|c s IH]; intros before after; simpl.
  - done.
  - destruct (Ascii.eqb_spec c sep) as [->|Hne].
    + by intros [= <- <-].
    + destruct (cut sep s) as [[b a]|] eqn:Hcut; [|done]. simpl.
      intros [= <- <-]. destruct (IH b a eq_refl) as [-> Hb].
      split; [done|]. simpl. rewrite Hb.
      by destruct (Ascii.eqb_spec c sep).
Qed.

Lemma cut_None (sep : ascii) (s : string) :
  cut sep s = None → contains_char sep s = false.
Proof.
  induction s as [|c s IH]; simpl; [done|].
  destruct (Ascii.eqb c sep); [done|].
  destruct (cut sep s) as [[b a]|]; [done|]. intros _. by apply IH.
Qed.

Lemma cut_app (sep : ascii) (before after : string) :
  contains_char sep before = false →
  cut sep (before +:+ String sep after) = Some (before, after).
Proof.
  induction before as [|c b IH]; simpl.
  - intros _. change (EmptyString +:+ ?s) with s. simpl.
    by rewrite Ascii.eqb_refl.
  - intros [Hc Hb]%orb_false_elim. by rewrite Hc, IH.
Qed.

Lemma String_prefix_app (a b : string) : String.prefix a (a +:+ b) = true.
Proof.
  induction a as [|c a IH].
  { change (EmptyString +:+ b) with b. by destruct b. }
  rewrite append_String. cbn [String.prefix].
  destruct (ascii_dec c c); [exact IH | done].
Qed.

(** What [pair[0]] is: there always is one, it begins the entry and it
    has no ['=']. *)
Lemma SplitN_first (e : string) :
  ∃ line, SplitN "=" 2 e !! 0%nat = Some line
          ∧ String.prefix line e = true
          ∧ contains_char "=" line = false.
Proof.
  simpl. destruct (cut "=" e) as [[b a]|] eqn:Hcut.
  - exists b. destruct (cut_Some _ _ _ _ Hcut) as [-> Hb].
    split_and!; [done | apply String_prefix_app | done].
  - exists e. split_and!; [done | | by apply cut_None].
    clear. induction e as [|c e IH]; [done|].
    cbn [String.prefix]. destruct (ascii_dec c c); [exact IH | done].
Qed.

(** X12.  The loop over the environment never panics, whatever the entries
    (empty, without ['='], starting with ['=']); it prints one line per
    entry, each line is the beginning of its entry and contains no ['=']:
    nothing from behind the first ['='] is printed. *)
Theorem printEnvironNames_no_values (environ : list string) :
  ∃ lines,
    printEnvironNames environ = Some lines
    ∧ length lines = length environ
    ∧ Forall2 (λ e line, String.prefix line e = true
                         ∧ contains_char "=" line = false) environ lines.
Proof.
  assert (Hall : ∃ lines,
            Forall2 (λ e line, SplitN "=" 2 e !! 0%nat = Some line
                               ∧ String.prefix line e = true
                               ∧ contains_char "=" line = false)
              environ lines).
  { induction environ as [|e environ [lines IH]]; [by exists []|].
    destruct (SplitN_first e) as (line & Hline).
    exists (line :: lines). by constructor. }
  destruct Hall as [lines Hall]. exists lines. split_and!.
  - apply mapM_Some_2. eapply Forall2_impl; [exact Hall|].
    by intros e line (? & _).
  - symmetry. by eapply Forall2_length.
  - eapply Forall2_impl; [exact Hall|]. by intros e line (_ & ? & ?).
Qed.

(** X13.  For entries of the form NAME=value the loop prints exactly the
    names. *)
Theorem printEnvironNames_names (vars : list (string * string)) :
  Forall (λ kv, contains_char "=" kv.1 = false) vars →
  printEnvironNames ((λ kv, kv.1 +:+ "=" +:+ kv.2) <$> vars) = Some (vars.*1).
Proof.
  intros Hvars. apply mapM_Some_2.
  induction Hvars as [|[k v] vars Hk _ IH]; [constructor|].
  rewrite !fmap_cons. constructor; [|exact IH].
  simpl in Hk |- *. change ("=" +:+ v) with (String "=" v).
  by rewrite (cut_app "=" k v Hk).
Qed.

Lemma printEnvironNames_names_witness :
  printEnvironNames ["OS_PASSWORD=secret"; "OS_AUTH_URL=http://k:5000/v3?a=b"]
    = Some ["OS_PASSWORD"; "OS_AUTH_URL"].
Proof.
  apply (printEnvironNames_names
           [("OS_PASSWORD", "secret"); ("OS_AUTH_URL", "http://k:5000/v3?a=b")]).
  repeat constructor.
Defined.

(** ** The wait group counter *)

Lemma balanced_init (prog : list HInstr) (t0 : Time) :
  wait_returns 0 0 prog = true → balanced prog (init t0).
Proof. intros Hprog. exists 0, 0. simpl. split_and!; done. Qed.

Lemma balanced_step (prog : list HInstr) (e : Event) (s s' : State) :
  balanced prog s → exec prog e s = Some s' → balanced prog s'.
Proof.
  intros (a & d & Hwg & Hle & Hcode). destruct e as [|k|dt]; simpl.
  - unfold hstep. destruct (prog !! hpc s) as [i|] eqn:Hi; [|done].
    rewrite (drop_S _ _ _ Hi) in Hcode. simpl.
    destruct i as [d0|n|[|d1] p body| | |]; simpl in Hcode |- *.
    + intros [= <-]. by exists a, d.
    + intros [= <-]. apply andb_true_iff in Hcode as [Hn Hcode].
      apply Z.leb_le in Hn. exists (a + n), d. simpl.
      split_and!; [lia | lia | done].
    + destruct (hctx s) as [ctx|]; [|done]. simpl. intros [= <-].
      apply andb_true_iff in Hcode as [Hd Hcode]. apply Z.leb_le in Hd.
      exists a, (d + Z.of_nat (count_done body)). simpl.
      rewrite outstanding_app. simpl. split_and!; [lia | lia | done].
    + intros [= <-].
      apply andb_true_iff in Hcode as [Hd Hcode]. apply Z.leb_le in Hd.
      exists a, (d + Z.of_nat (count_done body)). simpl.
      rewrite outstanding_app. simpl. split_and!; [lia | lia | done].
    + case_decide; [|done]. intros [= <-].
      apply andb_true_iff in Hcode as [_ Hcode]. by exists a, d.
    + intros [= <-]. by exists a, d.
    + destruct (hctx s) as [ctx|]; [|done]. simpl. intros [= <-].
      by exists a, d.
  - intros Hstep.
    destruct (gstep_Some _ _ _ Hstep)
      as (g & i & rest & Hg & Hgc & Hpool & Hpool' & _ & Hpc & _ & _ & _ & Hwg').
    exists a, d. rewrite Hpool', Hpc, Hwg'. rewrite Hpool in Hwg.
    rewrite outstanding_app in Hwg |- *. simpl in Hwg |- *.
    rewrite Hgc, count_done_cons in Hwg.
    split_and!; [|done|done].
    destruct (decide (i = GWgDone)); lia.
  - intros [= <-]. by exists a, d.
Qed.

Lemma outstanding_lookup (gs : list Goroutine) (k : nat) (g : Goroutine) :
  gs !! k = Some g → Z.of_nat (count_done (g_code g)) ≤ outstanding gs.
Proof.
  revert k. induction gs as [|g' gs IH]; intros k; [done|].
  pose proof (outstanding_nonneg gs). destruct k as [|k]; simpl.
  - intros [= ->]. lia.
  - intros Hk. specialize (IH k Hk). lia.
Qed.

Lemma balanced_counter_safe (prog : list HInstr) (s : State) :
  balanced prog s → counter_safe s.
Proof.
  intros (a & d & Hwg & Hle & _).
  pose proof (outstanding_nonneg (pool s)) as Hnn.
  split; [lia|]. intros k g rest Hg Hcode.
  pose proof (outstanding_lookup _ _ _ Hg) as Hk.
  rewrite Hcode, count_done_cons, decide_True in Hk by done.
  assert (Hpos : 0 < wg s) by lia. split; [done|].
  unfold gstep. rewrite Hg. simpl. rewrite Hcode.
  rewrite decide_True by done. by eexists.
Qed.

Lemma Query_wait_returns
    (ParseDuration : string → option Duration) (query : Query.Values) :
  wait_returns 0 0 (Query.metricsHandler ParseDuration query) = true.
Proof. reflexivity. Qed.

Lemma Flags_wait_returns (cfg : Flags.Config) :
  wait_returns 0 0 (Flags.metricsHandler cfg) = true.
Proof.
  unfold Flags.metricsHandler.
  by destruct (Flags.disableInstance cfg), (Flags.disableObjectStore cfg).
Qed.

(** X14.  In both revisions, for every flag setting and under every schedule:
    the wait group counter is never negative, and whenever a goroutine is
    about to call [wg.Done()] the counter is positive, so that call never
    panics. *)
Theorem Done_never_panics :
  (∀ (ParseDuration : string → option Duration) (query : Query.Values)
     (sched : list Event) (t0 : Time),
     counter_safe (run (Query.metricsHandler ParseDuration query) sched (init t0)))
  ∧ (∀ (cfg : Flags.Config) (sched : list Event) (t0 : Time),
       counter_safe (run (Flags.metricsHandler cfg) sched (init t0))).
Proof.
  split.
  - intros P query sched t0. eapply balanced_counter_safe.
    apply run_invariant; [apply balanced_step|].
    apply balanced_init, Query_wait_returns.
  - intros cfg sched t0. eapply balanced_counter_safe.
    apply run_invariant; [apply balanced_step|].
    apply balanced_init, Flags_wait_returns.
Qed.

(** ** The handler always gets to its end *)

Lemma pool_weight_app (gs1 gs2 : list Goroutine) :
  pool_weight (gs1 ++ gs2) = (pool_weight gs1 + pool_weight gs2)%nat.
Proof. induction gs1 as [|g gs1 IH]; simpl; [done|]. rewrite IH. lia. Qed.

(** Every move of the handler or of a goroutine uses up one of the
    instructions that remain. *)
Lemma remaining_step (prog : list HInstr) (e : Event) (s s' : State) :
  is_tick e = false → exec prog e s = Some s' →
  remaining prog s = S (remaining prog s').
Proof.
  unfold remaining. destruct e as [|k|dt]; simpl; [| |done]; intros _.
  - unfold hstep. destruct (prog !! hpc s) as [i|] eqn:Hi; [|done].
    rewrite (drop_S _ _ _ Hi). simpl.
    destruct i as [d0|n|[|d1] p body| | |]; simpl.
    + by intros [= <-].
    + by intros [= <-].
    + destruct (hctx s) as [ctx|]; [|done]. simpl. intros [= <-]. simpl.
      rewrite pool_weight_app. simpl. lia.
    + intros [= <-]. simpl. rewrite pool_weight_app. simpl. lia.
    + case_decide; [|done]. by intros [= <-].
    + by intros [= <-].
    + destruct (hctx s) as [ctx|]; [|done]. simpl. by intros [= <-].
  - intros Hstep.
    destruct (gstep_Some _ _ _ Hstep)
      as (g & i & rest & Hg & Hgc & Hpool & Hpool' & _ & Hpc & _).
    rewrite Hpool', Hpc. rewrite Hpool at 1.
    rewrite !pool_weight_app. simpl. rewrite Hgc. simpl. lia.
Qed.

Lemma outstanding_pos (gs : list Goroutine) :
  0 < outstanding gs →
  ∃ k g, gs !! k = Some g ∧ (0 < count_done (g_code g))%nat.
Proof.
  induction gs as [|g gs IH]; simpl; [lia|]. intros Hpos.
  destruct (decide (0 < count_done (g_code g))%nat) as [Hg|Hg].
  - by exists 0%nat, g.
  - destruct IH as (k & g' & Hk & Hg'); [lia|]. by exists (S k), g'.
Qed.

Lemma can_go_on_step (d : Duration) (t0 : Time) (rest : list HInstr)
    (e : Event) (s s' : State) :
  no_WithTimeout rest = true →
  can_go_on d t0 (HWithTimeout d :: rest) s →
  exec (HWithTimeout d :: rest) e s = Some s' →
  can_go_on d t0 (HWithTimeout d :: rest) s'.
Proof.
  intros Hrest (Hbal & Hctx & Hpc & Hresp) Hstep. split_and!.
  - by eapply balanced_step.
  - by eapply one_context_step.
  - destruct e as [|k|dt]; simpl in Hstep.
    + pose proof (hstep_Some _ _ _ Hstep) as (i & r & _ & _ & -> & Hi).
      by apply lookup_lt_Some in Hi.
    + by destruct (gstep_Some _ _ _ Hstep) as (_ & _ & _ & _ & _ & _ & _ & _ & -> & _).
    + by injection Hstep as <-.
  - destruct e as [|k|dt]; simpl in Hstep.
    + revert Hstep. unfold hstep.
      destruct (_ !! hpc s) as [i|] eqn:Hi; [|done].
      rewrite (drop_S _ _ _ Hi) in Hresp. simpl.
      assert (Hnext : i ≠ HServe →
                is_Some (response s) ∨ HServe ∈ drop (S (hpc s)) (HWithTimeout d :: rest)).
      { intros Hne. destruct Hresp as [?|[?|?]%elem_of_cons]; [by left|done|by right]. }
      destruct i as [d0|n|[|d1] p body| | |]; simpl.
      * intros [= <-]. by apply Hnext.
      * intros [= <-]. by apply Hnext.
      * destruct (hctx s); [|done]. simpl. intros [= <-]. by apply Hnext.
      * intros [= <-]. by apply Hnext.
      * case_decide; [|done]. intros [= <-]. by apply Hnext.
      * intros [= <-]. left. by eexists.
      * destruct (hctx s); [|done]. simpl. intros [= <-]. by apply Hnext.
    + destruct (gstep_Some _ _ _ Hstep)
        as (_ & _ & _ & _ & _ & _ & _ & _ & -> & _ & _ & -> & _). done.
    + by injection Hstep as <-.
Qed.

Lemma can_go_on_init (d : Duration) (t0 : Time) (rest : list HInstr) :
  wait_returns 0 0 (HWithTimeout d :: rest) = true →
  HServe ∈ rest →
  can_go_on d t0 (HWithTimeout d :: rest) (init t0).
Proof.
  intros Hw Hs. split_and!.
  - by apply balanced_init.
  - split; [simpl; lia|]. by left.
  - simpl. lia.
  - right. simpl. by apply elem_of_cons; right.
Qed.

(** No deadlock: while the handler has not returned, the handler or one
    of the goroutines can move. *)
Lemma not_stuck (d : Duration) (t0 : Time) (rest : list HInstr) (s : State) :
  can_go_on d t0 (HWithTimeout d :: rest) s →
  ¬ returned (HWithTimeout d :: rest) s →
  ∃ e s', is_tick e = false ∧ exec (HWithTimeout d :: rest) e s = Some s'.
Proof.
  intros ((a & d' & Hwg & Hle & Hcode) & [_ Hctx] & Hpc & _) Hnot.
  unfold returned in Hnot.
  destruct (lookup_lt_is_Some_2 (HWithTimeout d :: rest) (hpc s)) as [i Hi];
    [lia|].
  rewrite (drop_S _ _ _ Hi) in Hcode.
  assert (Hh : ∀ s', hstep (HWithTimeout d :: rest) s = Some s' →
                     ∃ e s', is_tick e = false
                             ∧ exec (HWithTimeout d :: rest) e s = Some s')
    by (intros s' Hs'; by exists EvHandler, s').
  assert (Hvar : i ≠ HWithTimeout d → ∃ c, hctx s = Some c).
  { intros Hne. destruct Hctx as [(H0 & _)|(t & _ & _ & Hc & _)]; [|by eexists].
    rewrite H0 in Hi. simpl in Hi. congruence. }
  unfold hstep in Hh. rewrite Hi in Hh. simpl in Hh.
  destruct i as [d0|n|[|d1] p body| | |]; simpl in Hh, Hcode.
  - by eapply Hh.
  - by eapply Hh.
  - destruct Hvar as [c Hc]; [done|]. rewrite Hc in Hh. by eapply Hh.
  - by eapply Hh.
  - destruct (decide (wg s = 0)) as [Hz|Hnz]; [by eapply Hh|].
    apply andb_true_iff in Hcode as [Heq _]. apply Z.eqb_eq in Heq.
    pose proof (outstanding_nonneg (pool s)) as Hnn.
    destruct (outstanding_pos (pool s)) as (k & g & Hg & Hdone); [lia|].
    destruct (g_code g) as [|j code] eqn:Hgc;
      [unfold count_done in Hdone; simpl in Hdone; lia|].
    exists (EvGoroutine k). simpl. unfold gstep. rewrite Hg. simpl.
    rewrite Hgc. destruct j; try (by eexists).
    rewrite decide_True by lia. by eexists.
  - by eapply Hh.
  - destruct Hvar as [c Hc]; [done|]. rewrite Hc in Hh. by eapply Hh.
Qed.

Lemma weight_zero (code : list HInstr) : weight code = 0%nat → code = [].
Proof. destruct code as [|[] ?]; simpl; done. Qed.

Lemma can_go_on_finishes (d : Duration) (t0 : Time) (rest : list HInstr) :
  no_WithTimeout rest = true →
  ∀ (n : nat) (s : State),
    remaining (HWithTimeout d :: rest) s = n →
    can_go_on d t0 (HWithTimeout d :: rest) s →
    finishes (HWithTimeout d :: rest) s.
Proof.
  intros Hrest n. induction n as [|n IH]; intros s Hn Hs.
  - exists []. simpl.
    destruct Hs as (_ & _ & Hpc & Hresp).
    assert (Hdrop : drop (hpc s) (HWithTimeout d :: rest) = []).
    { apply weight_zero. unfold remaining in Hn. lia. }
    assert (Hret : returned (HWithTimeout d :: rest) s).
    { unfold returned. apply (f_equal length) in Hdrop.
      rewrite length_drop in Hdrop. simpl in *. lia. }
    split_and!; [done | lia | done |].
    rewrite Hdrop in Hresp. destruct Hresp as [?|?%elem_of_nil]; done.
  - destruct (decide (hpc s = length (HWithTimeout d :: rest))) as [Hret|Hnot].
    + exists []. simpl. split_and!; [done | lia | done |].
      destruct Hs as (_ & _ & _ & Hresp). unfold returned in Hret.
      rewrite Hret, drop_all in Hresp.
      destruct Hresp as [?|?%elem_of_nil]; done.
    + destruct (not_stuck d t0 rest s Hs Hnot) as (e & s' & Hnt & He).
      pose proof (remaining_step _ _ _ _ Hnt He) as Hrem.
      destruct (IH s') as (cont & Hticks & Hlen & Hret & Hresp).
      { lia. }
      { by eapply can_go_on_step. }
      exists (e :: cont). simpl. rewrite He. simpl.
      split_and!; [by constructor | lia | done | done].
Qed.

Lemma handler_finishes (d : Duration) (rest : list HInstr) :
  no_WithTimeout rest = true →
  wait_returns 0 0 (HWithTimeout d :: rest) = true →
  HServe ∈ rest →
  ∀ (sched : list Event) (t0 : Time),
    finishes (HWithTimeout d :: rest)
      (run (HWithTimeout d :: rest) sched (init t0)).
Proof.
  intros Hrest Hw Hs sched t0.
  eapply (can_go_on_finishes d t0 rest Hrest); [done|].
  apply run_invariant.
  - intros e s s'. by apply can_go_on_step.
  - by apply can_go_on_init.
Qed.

(** X15.  In both revisions, for every flag setting: whatever has happened so
    far, the handler can still be brought to its end, with the response
    written, by letting the handler and the goroutines move; no passing
    of time is needed and the number of moves is bounded by the
    instructions left.  The handler never deadlocks on [wg.Wait()]. *)
Theorem handler_can_always_finish :
  (∀ (ParseDuration : string → option Duration) (query : Query.Values)
     (sched : list Event) (t0 : Time),
     finishes (Query.metricsHandler ParseDuration query)
       (run (Query.metricsHandler ParseDuration query) sched (init t0)))
  ∧ (∀ (cfg : Flags.Config) (sched : list Event) (t0 : Time),
       finishes (Flags.metricsHandler cfg)
         (run (Flags.metricsHandler cfg) sched (init t0))).
Proof.
  split.
  - intros P query sched t0. apply handler_finishes; [done|done|].
    set_solver.
  - intros cfg sched t0.
    apply (handler_finishes (Flags.requestTimeout cfg)).
    + by destruct (Flags.disableInstance cfg), (Flags.disableObjectStore cfg).
    + apply (Flags_wait_returns cfg).
    + destruct (Flags.disableInstance cfg), (Flags.disableObjectStore cfg);
        simpl; set_solver.
Qed.

(** ** The deferred [cancel] *)

Lemma cancel_done (ctx : Context) (w : World) :
  ctx_done ctx (cancel ctx w) = true.
Proof.
  unfold cancel. destruct (ctx_done ctx w) eqn:Hd; [done|].
  unfold ctx_done. simpl. apply orb_true_iff. left.
  apply bool_decide_eq_true. set_solver.
Qed.

Lemma released_step (d : Duration) (t0 : Time) (rest : list HInstr)
    (e : Event) (s s' : State) :
  last (HWithTimeout d :: rest) = Some HCancel →
  one_context d t0 (HWithTimeout d :: rest) s →
  (∀ c, returned (HWithTimeout d :: rest) s → c ∈ created s →
        ctx_done c (world s) = true) →
  exec (HWithTimeout d :: rest) e s = Some s' →
  ∀ c, returned (HWithTimeout d :: rest) s' → c ∈ created s' →
       ctx_done c (world s') = true.
Proof.
  intros Hlast [_ Hctx] Hrel Hstep c Hret Hc. unfold returned in *.
  destruct e as [|k|dt]; simpl in Hstep.
  - revert Hstep Hret Hc. unfold hstep.
    destruct (_ !! hpc s) as [i|] eqn:Hi; [|done]. simpl.
    assert (Hend : S (hpc s) = length (HWithTimeout d :: rest) → i = HCancel).
    { intros Hlen. rewrite last_lookup in Hlast.
      rewrite <- Hlen in Hlast. simpl in Hlast. congruence. }
    destruct i as [d0|n|[|d1] p body| | |]; simpl;
      try (intros [= <-]; simpl; intros Hlen; by specialize (Hend Hlen));
      try (destruct (hctx s); [|done]; simpl; intros [= <-]; simpl;
           intros Hlen; by specialize (Hend Hlen)).
    + case_decide; [|done]. intros [= <-]. simpl. intros Hlen.
      by specialize (Hend Hlen).
    + destruct Hctx as [(H0 & _)|(t & _ & Hcr & Hvar & _)].
      { rewrite H0 in Hi. by simpl in Hi. }
      rewrite Hvar, Hcr. simpl. intros [= <-]. simpl.
      intros _ ->%list_elem_of_singleton. apply cancel_done.
  - destruct (gstep_Some _ _ _ Hstep)
      as (_ & _ & _ & _ & _ & _ & _ & Hw & Hpc & _ & Hcr & _).
    rewrite Hw. rewrite Hpc in Hret. rewrite Hcr in Hc. by apply Hrel.
  - injection Hstep as <-. simpl in *.
    eapply (ctx_done_later c (world s)); [simpl; lia | done | by apply Hrel].
Qed.

Lemma handler_releases (d : Duration) (rest : list HInstr) :
  no_WithTimeout rest = true →
  last (HWithTimeout d :: rest) = Some HCancel →
  ∀ (sched : list Event) (t0 : Time),
    released (HWithTimeout d :: rest)
      (run (HWithTimeout d :: rest) sched (init t0)).
Proof.
  intros Hrest Hlast sched t0.
  assert (Hinv : one_context d t0 (HWithTimeout d :: rest)
                   (run (HWithTimeout d :: rest) sched (init t0))
                 ∧ ∀ c, returned (HWithTimeout d :: rest)
                          (run (HWithTimeout d :: rest) sched (init t0)) →
                        c ∈ created (run (HWithTimeout d :: rest) sched (init t0)) →
                        ctx_done c (world (run (HWithTimeout d :: rest) sched
                                             (init t0))) = true).
  { apply (run_invariant (HWithTimeout d :: rest)
             (λ s, one_context d t0 (HWithTimeout d :: rest) s
                   ∧ ∀ c, returned (HWithTimeout d :: rest) s →
                          c ∈ created s → ctx_done c (world s) = true)).
    - intros e s s' [Hone Hrel] Hstep. split.
      + by eapply one_context_step.
      + by eapply released_step.
    - split; [split; [simpl; lia | by left]|].
      by intros c _ ?%elem_of_nil. }
  destruct Hinv as [Hone Hrel]. intros Hret. split.
  - intros c Hc. by apply Hrel.
  - intros g Hg.
    destruct (one_context_shares _ _ _ _ Hone) as (_ & _ & Hpool & _).
    destruct (Hpool g Hg) as [Hcr _]. apply Hrel; [done|].
    rewrite Hcr. by apply list_elem_of_singleton.
Qed.

(** X16.  In both revisions, under every schedule: once the handler has
    returned, its deferred [cancel] has run, so the context it made is
    done, and with it the context of every goroutine it started, also of
    one whose probe is still running. *)
Theorem return_cancels_context :
  (∀ (ParseDuration : string → option Duration) (query : Query.Values)
     (sched : list Event) (t0 : Time),
     released (Query.metricsHandler ParseDuration query)
       (run (Query.metricsHandler ParseDuration query) sched (init t0)))
  ∧ (∀ (cfg : Flags.Config) (sched : list Event) (t0 : Time),
       released (Flags.metricsHandler cfg)
         (run (Flags.metricsHandler cfg) sched (init t0))).
Proof.
  split.
  - intros P query sched t0. by apply handler_releases.
  - intros cfg sched t0.
    apply (handler_releases (Flags.requestTimeout cfg));
      by destruct (Flags.disableInstance cfg), (Flags.disableObjectStore cfg).
Qed.

(** With only the instance probe enabled, five moves of the handler
    return it, and [spawnMain], which has not begun, is left with a
    context that is already done. *)
Lemma return_cancels_context_witness :
  let cfg := Flags.mkConfig (59 * Second) "t2.small" "ubuntu-16.04-x86_64"
               "private" "internet" "ubuntu" true false in
  let s := run (Flags.metricsHandler cfg) (repeat EvHandler 5) (init 0) in
  returned (Flags.metricsHandler cfg) s
  ∧ (g_code <$> pool s) = [[GNow; GCall; GWgDone; GLog]]
  ∧ ∀ g, g ∈ pool s → ctx_done (g_ctx g) (world s) = true.
Proof.
  intros cfg s.
  assert (Hret : returned (Flags.metricsHandler cfg) s) by (by vm_compute).
  split; [exact Hret|]. split; [by vm_compute|].
  exact (proj2 (proj2 return_cancels_context cfg (repeat EvHandler 5) 0 Hret)).
Defined.

(** ** When the handler of part_000 waits *)

Lemma stuck_handler_stays (prog : list HInstr) (n : nat) (s : State) :
  hstep prog s = None → run prog (repeat EvHandler n) s = s.
Proof.
  intros Hstuck. induction n as [|n IH]; [done|].
  simpl. by rewrite Hstuck.
Qed.

Lemma repeat_plus {A} (x : A) (n m : nat) :
  repeat x (n + m) = repeat x n ++ repeat x m.
Proof. apply repeat_app. Qed.

(** X17.  Left to itself (no goroutine scheduled) the handler of part_000
    returns if and only if the object-store probe is disabled: it is the
    object-store flag alone, not the presence of started probes, that
    decides whether the handler waits. *)
Theorem Flags_waits_iff_objectstore (cfg : Flags.Config) (t0 : Time) :
  (∃ n, returned (Flags.metricsHandler cfg)
          (run (Flags.metricsHandler cfg) (repeat EvHandler n) (init t0)))
  ↔ Flags.disableObjectStore cfg = true.
Proof.
  destruct cfg as [d ? ? ? ? ? dos di]. simpl. split.
  - intros [n Hn]. destruct dos; [done|]. exfalso. revert Hn.
    unfold returned, Flags.metricsHandler. simpl.
    destruct di; simpl.
    + do 4 (destruct n as [|n]; [by vm_compute|]).
      change (S (S (S (S n)))) with (4 + n)%nat.
      rewrite repeat_plus, run_app.
      rewrite stuck_handler_stays; by vm_compute.
    + do 6 (destruct n as [|n]; [by vm_compute|]).
      change (S (S (S (S (S (S n)))))) with (6 + n)%nat.
      rewrite repeat_plus, run_app.
      rewrite stuck_handler_stays; by vm_compute.
  - intros ->. exists 5%nat. by destruct di; vm_compute.
Qed.

(** ** The [timeout] parameter *)

(** X18.  Only the first value of the key [timeout] counts: other keys and
    further values of [timeout] do not change the timeout of the
    request. *)
Theorem requestTimeout_first_value
    (ParseDuration : string → option Duration) (query1 query2 : Query.Values) :
  (query1 !! "timeout" ≫= head) = (query2 !! "timeout" ≫= head) →
  Query.requestTimeout ParseDuration query1
    = Query.requestTimeout ParseDuration query2.
Proof.
  intros Hfirst.
  assert (Hget : Query.Get query1 "timeout" = Query.Get query2 "timeout").
  { unfold Query.Get.
    destruct (query1 !! "timeout") as [[|x1 l1]|],
             (query2 !! "timeout") as [[|x2 l2]|];
      simpl in Hfirst; congruence. }
  unfold Query.requestTimeout. by rewrite Hget.
Qed.

Lemma requestTimeout_first_value_witness :
  Query.requestTimeout ParseDuration_integral
    {[ "timeout" := ["30s"; "5s"]; "debug" := ["1"] ]}
  = Query.requestTimeout ParseDuration_integral {[ "timeout" := ["30s"] ]}.
Proof.
  apply (requestTimeout_first_value ParseDuration_integral
           {[ "timeout" := ["30s"; "5s"]; "debug" := ["1"] ]}
           {[ "timeout" := ["30s"] ]}).
  by vm_compute.
Defined.

Lemma Flags_serves_after_probes_witness :
  let cfg := Flags.mkConfig (59 * Second) "t2.small" "ubuntu-16.04-x86_64"
               "private" "internet" "ubuntu" false false in
  let s := run (Flags.metricsHandler cfg) to_completion (init 0) in
  response s = None ∨ response s = Some [].
Proof.
  apply (Flags_serves_after_probes
           (Flags.mkConfig (59 * Second) "t2.small" "ubuntu-16.04-x86_64"
              "private" "internet" "ubuntu" false false) to_completion 0).
  simpl. by intros [_ ?].
Defined.

(** X19.  The parser is never asked about an empty parameter: two parsers that
    agree on non-empty strings give the same timeout, and an empty
    [timeout=] gives the default whatever the parser. *)
Theorem requestTimeout_skips_empty
    (Parse1 Parse2 : string → option Duration) (query : Query.Values) :
  (∀ s, s ≠ EmptyString → Parse1 s = Parse2 s) →
  Query.requestTimeout Parse1 query = Query.requestTimeout Parse2 query
  ∧ (Query.Get query "timeout" = EmptyString →
     Query.requestTimeout Parse1 query = defaultRequestTimeout).
Proof.
  intros Hagree. unfold Query.requestTimeout. split.
  - case_decide as Hparam; [|done]. by rewrite Hagree.
  - intros ->. by rewrite decide_False by (by intros ?).
Qed.

Lemma requestTimeout_skips_empty_witness :
  Query.requestTimeout (λ _, Some 1) {[ "timeout" := [""] ]}
    = defaultRequestTimeout.
Proof.
  refine (proj2 (requestTimeout_skips_empty (λ _, Some 1) (λ _, Some 1)
                   {[ "timeout" := [""] ]} _) _).
  - done.
  - by vm_compute.
Defined.

(** ** main.go starts both probes *)

(** X22.  In main.go, under every schedule, the probes started so far are an
    initial part of [spawnMain; objectStoreMain], and once the response
    is written both have been started, in that order, and nothing else. *)
Theorem Query_starts_both_probes
    (ParseDuration : string → option Duration) (query : Query.Values)
    (sched : list Event) (t0 : Time) :
  let s := run (Query.metricsHandler ParseDuration query) sched (init t0) in
  (g_probe <$> pool s) `prefix_of` [spawnMain; objectStoreMain]
  ∧ (is_Some (response s) → g_probe <$> pool s = [spawnMain; objectStoreMain]).
Proof.
  intros s.
  destruct (starts_run (Query.metricsHandler ParseDuration query))
    with (sched := sched) (t0 := t0) as (Hpre & _ & Hresp); [done|].
  fold s in Hpre, Hresp.
  change (spawned (Query.metricsHandler ParseDuration query))
    with [spawnMain; objectStoreMain] in Hpre.
  split.
  - eexists. by rewrite Hpre.
  - intros Hr. by rewrite (Hresp Hr), app_nil_r in Hpre.
Qed.

(** ** The context and the probes of a request *)

Lemma same_context_replicate (gs : list Goroutine) (c : Context) :
  Forall (λ g, g_ctx g = c) gs → g_ctx <$> gs = replicate (length gs) c.
Proof.
  induction 1 as [|g gs Hg _ IH]; [done|].
  rewrite fmap_cons, Hg, IH. reflexivity.
Qed.

Lemma handler_context_for_all (d : Duration) (rest : list HInstr) :
  no_WithTimeout rest = true →
  wait_returns 0 0 (HWithTimeout d :: rest) = true →
  HServe ∈ rest →
  quiet_after_serve (HWithTimeout d :: rest) = true →
  ∀ (sched : list Event) (t0 : Time),
    context_for_all d t0 (HWithTimeout d :: rest)
      (spawned (HWithTimeout d :: rest))
      (run (HWithTimeout d :: rest) sched (init t0)).
Proof.
  intros Hrest Hw Hs Hq sched t0.
  pose proof (one_context_run d rest Hrest sched t0) as Hone.
  split_and!.
  - by eapply one_context_shares.
  - intros Hpc.
    destruct Hone as [_ [(_ & Hcr & _)|(t & _ & _ & _ & _ & Hcode)]].
    + unfold hstep. rewrite Hpc, Hcr. simpl. by eexists.
    + by rewrite Hpc in Hcode.
  - intros Hpos.
    destruct Hone as [_ [(Hpc & _)|(t & _ & Hcr & Hvar & _)]]; [lia|].
    by eexists.
  - destruct (handler_finishes d rest Hrest Hw Hs sched t0)
      as (cont & Hticks & _ & _ & Hresp).
    exists cont. split; [done|]. rewrite <- run_app in Hresp |- *.
    split; [done|].
    destruct (one_context_run d rest Hrest (sched ++ cont) t0)
      as [_ [(_ & _ & _ & _ & Hnone)|(t & _ & Hcr & _ & Hpool & _)]].
    { rewrite Hnone in Hresp. by destruct Hresp. }
    destruct (starts_run _ Hq (sched ++ cont) t0) as (Hsp & _ & Hdone).
    rewrite (Hdone Hresp), app_nil_r in Hsp.
    eexists. split; [exact Hcr|]. split; [exact Hsp|].
    rewrite (same_context_replicate _ _ Hpool). f_equal.
    by rewrite <- Hsp, length_fmap.
Qed.

Lemma Flags_spawned (cfg : Flags.Config) :
  spawned (Flags.metricsHandler cfg) = enabled cfg.
Proof.
  unfold Flags.metricsHandler, enabled.
  by destruct (Flags.disableInstance cfg), (Flags.disableObjectStore cfg).
Qed.

(** C5.  In both revisions, in every state of every run of the handler:
    at most one context has been made, with the request timeout (its
    deadline is the instant of its creation plus that timeout), and every
    goroutine started so far holds exactly that context; the handler's
    first move is always possible and makes that context; from then on
    exactly one context exists; and the run can always go on to the
    response being written, with still exactly one context, with the
    goroutines of all the probes the handler starts (both in main.go, the
    enabled ones in part_000) and with each of them holding that same
    context. *)
Theorem one_shared_context :
  (∀ (ParseDuration : string → option Duration) (query : Query.Values)
     (sched : list Event) (t0 : Time),
     context_for_all (Query.requestTimeout ParseDuration query) t0
       (Query.metricsHandler ParseDuration query)
       [spawnMain; objectStoreMain]
       (run (Query.metricsHandler ParseDuration query) sched (init t0)))
  ∧ (∀ (cfg : Flags.Config) (sched : list Event) (t0 : Time),
       context_for_all (Flags.requestTimeout cfg) t0
         (Flags.metricsHandler cfg) (enabled cfg)
         (run (Flags.metricsHandler cfg) sched (init t0))).
Proof.
  split.
  - intros P query sched t0.
    apply (handler_context_for_all (Query.requestTimeout P query));
      [done | done | set_solver | done].
  - intros cfg sched t0. rewrite <- Flags_spawned.
    apply (handler_context_for_all (Flags.requestTimeout cfg)).
    + by destruct (Flags.disableInstance cfg), (Flags.disableObjectStore cfg).
    + apply (Flags_wait_returns cfg).
    + destruct (Flags.disableInstance cfg), (Flags.disableObjectStore cfg);
        simpl; set_solver.
    + unfold Flags.metricsHandler.
      by destruct (Flags.disableInstance cfg), (Flags.disableObjectStore cfg).
Qed.

(** A handler that gave each probe a context of its own would not do:
    after its third move two contexts exist. *)
Example own_contexts_are_not_shared :
  let prog :=
    [ HWithTimeout (59 * Second);
      HWgAdd 1; HGoWith (CtxOwn (59 * Second)) spawnMain [GCall; GWgDone];
      HWgAdd 1; HGoWith (CtxOwn (59 * Second)) objectStoreMain [GCall; GWgDone];
      HWgWait; HServe; HCancel ] in
  ¬ shares_one_deadline (59 * Second) 0 (run prog (repeat EvHandler 3) (init 0)).
Proof. intros prog (Hlen & _). vm_compute in Hlen. lia. Qed.

(** Nor would a handler that does nothing: it makes no context. *)
Example idle_handler_makes_no_context (d : Duration) (t0 : Time)
    (probes : list Probe) :
  ¬ context_for_all d t0 [] probes (init t0).
Proof. intros (_ & Hfirst & _). by destruct (Hfirst eq_refl) as (s' & ? & _). Qed.

Lemma idle_handler_never_answers (sched : list Event) (t0 : Time) :
  response (run [] sched (init t0)) = None.
Proof.
  assert (Hinv : response (run [] sched (init t0)) = None
                 ∧ pool (run [] sched (init t0)) = []).
  { apply (run_invariant [] (λ s, response s = None ∧ pool s = [])); [|done].
    intros [|k|dt] s s' [Hr Hp]; simpl.
    - unfold hstep. by rewrite lookup_nil.
    - unfold gstep. by rewrite Hp.
    - by intros [= <-]. }
  by destruct Hinv.
Qed.

(** C9.  In the revision with flags, in every state of every run: the
    probes started so far are an initial part of the enabled ones (the
    instance probe if [disableInstance] is false, then the object-store
    probe if [disableObjectStore] is false), and once the response is
    written they are exactly the enabled ones; the run can always go on
    to the response being written, with exactly the enabled probes
    started; and five moves of the handler from its start, before
    anything else happens, start exactly the enabled probes.  So each
    probe is started if and only if its flag is false, and nothing else
    is started. *)
Theorem starts_enabled_probes
    (cfg : Flags.Config) (sched : list Event) (t0 : Time) :
  let s := run (Flags.metricsHandler cfg) sched (init t0) in
  (g_probe <$> pool s) `prefix_of` enabled cfg
  ∧ (is_Some (response s) →
     g_probe <$> pool s = enabled cfg
     ∧ (spawnMain ∈ g_probe <$> pool s ↔ Flags.disableInstance cfg = false)
     ∧ (objectStoreMain ∈ g_probe <$> pool s
        ↔ Flags.disableObjectStore cfg = false))
  ∧ reaches (Flags.metricsHandler cfg) s (λ s',
      is_Some (response s') ∧ g_probe <$> pool s' = enabled cfg)
  ∧ g_probe <$> pool (run (Flags.metricsHandler cfg) (repeat EvHandler 5)
                         (init t0)) = enabled cfg
  ∧ (spawnMain ∈ enabled cfg ↔ Flags.disableInstance cfg = false)
  ∧ (objectStoreMain ∈ enabled cfg ↔ Flags.disableObjectStore cfg = false).
Proof.
  intros s.
  assert (Hquiet : quiet_after_serve (Flags.metricsHandler cfg) = true).
  { unfold Flags.metricsHandler.
    by destruct (Flags.disableInstance cfg), (Flags.disableObjectStore cfg). }
  assert (Hiff : (spawnMain ∈ enabled cfg ↔ Flags.disableInstance cfg = false)
                 ∧ (objectStoreMain ∈ enabled cfg
                    ↔ Flags.disableObjectStore cfg = false)).
  { unfold enabled.
    destruct (Flags.disableInstance cfg), (Flags.disableObjectStore cfg);
      simpl; split; split; intros H; try done;
      repeat (apply elem_of_cons in H as [H|H]; try done);
      try (by apply elem_of_nil in H); set_solver. }
  destruct (starts_run (Flags.metricsHandler cfg) Hquiet sched t0)
    as (Hpre & _ & Hresp).
  fold s in Hpre, Hresp. rewrite Flags_spawned in Hpre.
  split_and!.
  - eexists. by rewrite Hpre.
  - intros Hr. rewrite (Hresp Hr), app_nil_r in Hpre. by rewrite Hpre.
  - assert (Hfin : finishes (Flags.metricsHandler cfg) s).
    { apply (handler_finishes (Flags.requestTimeout cfg)).
      - by destruct (Flags.disableInstance cfg), (Flags.disableObjectStore cfg).
      - apply (Flags_wait_returns cfg).
      - destruct (Flags.disableInstance cfg), (Flags.disableObjectStore cfg);
          simpl; repeat constructor. }
    destruct Hfin as (cont & Hticks & _ & _ & Hr).
    exists cont. split; [done|]. split; [done|].
    unfold s in Hr |- *. rewrite <- run_app in Hr |- *.
    destruct (starts_run (Flags.metricsHandler cfg) Hquiet (sched ++ cont) t0)
      as (Hsp & _ & Hdone).
    by rewrite (Hdone Hr), app_nil_r, Flags_spawned in Hsp.
  - destruct cfg as [d ? ? ? ? ? dos di]. by destruct di, dos.
  - apply Hiff.
  - apply Hiff.
Qed.

(** ** The timeout parameter in the two revisions *)

(** C4, where it fails: in part_000 a request with [timeout=30s], which
    parses, is given the flag's 59 seconds. *)
Lemma Flags_ignores_timeout_parameter :
  let query : Query.Values := {[ "timeout" := ["30s"] ]} in
  ParseDuration_integral (Query.Get query "timeout") = Some (30 * Second)
  ∧ Flags.metricsHandler_for Flags.defaults query !! 0%nat
    = Some (HWithTimeout (59 * Second))
  ∧ Flags.metricsHandler_for Flags.defaults query !! 0%nat
    ≠ Some (HWithTimeout (30 * Second))
  ∧ ¬ (∀ (cfg : Flags.Config) (q : Query.Values) (value : Duration),
         ParseDuration_integral (Query.Get q "timeout") = Some value →
         Flags.metricsHandler_for cfg q !! 0%nat = Some (HWithTimeout value)).
Proof.
  intros query. split; [by vm_compute|]. split; [reflexivity|].
  split; [by intros [=]|]. intros Hall.
  specialize (Hall Flags.defaults query (30 * Second)).
  assert (Hparse : ParseDuration_integral (Query.Get query "timeout")
                   = Some (30 * Second)) by (by vm_compute).
  specialize (Hall Hparse). by inversion Hall.
Qed.

(** C4.  In main.go, for a parser that rejects the empty string: when the
    [timeout] parameter is absent or does not parse the handler takes
    [defaultRequestTimeout], when it parses the handler takes the parsed
    value, that value is the timeout of the context the handler makes,
    and the response is written whatever the parameter.  In part_000 the
    parameter is not read: whatever the request, the timeout of the
    context is the value of the [-timeout] flag, and the response is
    written. *)
Theorem timeout_override_by_revision
    (ParseDuration : string → option Duration) (query : Query.Values)
    (cfg : Flags.Config) (t0 : Time) :
  ParseDuration EmptyString = None →
  let param := Query.Get query "timeout" in
  (let d := Query.requestTimeout ParseDuration query in
   let prog := Query.metricsHandler ParseDuration query in
   (query !! "timeout" = None → d = defaultRequestTimeout)
   ∧ (ParseDuration param = None → d = defaultRequestTimeout)
   ∧ (∀ value, ParseDuration param = Some value → d = value)
   ∧ prog !! 0%nat = Some (HWithTimeout d)
   ∧ (∀ sched c, c ∈ created (run prog sched (init t0)) →
        ∃ t, t0 ≤ t ∧ ctx_deadline c = t + d)
   ∧ response (run prog to_completion (init t0)) = Some [])
  ∧ (let d := Flags.requestTimeout cfg in
     let prog := Flags.metricsHandler_for cfg query in
     prog !! 0%nat = Some (HWithTimeout d)
     ∧ (∀ sched c, c ∈ created (run prog sched (init t0)) →
          ∃ t, t0 ≤ t ∧ ctx_deadline c = t + d)
     ∧ is_Some (response (run prog to_completion (init t0)))).
Proof.
  intros Hempty param. split.
  - by apply Query_timeout_override_or_default.
  - unfold Flags.metricsHandler_for. split_and!.
    + done.
    + intros sched c Hc.
      assert (Hone : one_context (Flags.requestTimeout cfg) t0
                       (Flags.metricsHandler cfg)
                       (run (Flags.metricsHandler cfg) sched (init t0))).
      { apply (one_context_run (Flags.requestTimeout cfg)).
        by destruct (Flags.disableInstance cfg), (Flags.disableObjectStore cfg). }
      destruct (one_context_shares _ _ _ _ Hone) as (_ & Hdl & _).
      destruct (Hdl c Hc) as (t & Ht & Heq). exists t. split; [lia | done].
    + apply Flags_runs_to_completion.
Qed.

Lemma timeout_override_by_revision_witness :
  Query.requestTimeout ParseDuration_integral {[ "timeout" := ["abc"] ]}
    = defaultRequestTimeout
  ∧ Query.requestTimeout ParseDuration_integral {[ "timeout" := ["30s"] ]}
    = 30 * Second
  ∧ Flags.metricsHandler_for Flags.defaults {[ "timeout" := ["30s"] ]} !! 0%nat
    = Some (HWithTimeout (Flags.requestTimeout Flags.defaults)).
Proof.
  split; [|split].
  - refine (proj1 (proj2 (proj1 (timeout_override_by_revision
              ParseDuration_integral {[ "timeout" := ["abc"] ]}
              Flags.defaults 0 _))) _); by vm_compute.
  - refine (proj1 (proj2 (proj2 (proj1 (timeout_override_by_revision
              ParseDuration_integral {[ "timeout" := ["30s"] ]}
              Flags.defaults 0 _)))) _ _); by vm_compute.
  - refine (proj1 (proj2 (timeout_override_by_revision
              ParseDuration_integral {[ "timeout" := ["30s"] ]}
              Flags.defaults 0 _))). by vm_compute.
Defined.

(** ** The context of the provider client in the two revisions *)



